(** * Tree series model and lines visual stage handler

    A shallow embedding of [src/chart/tree/TreeSeries.ts] (the tree series
    model) and of the visual stage handler of the lines series, together with
    the properties their specification states about them.

    JavaScript values are a small inductive type; the collaborators the two
    files import (Model, List, Tree, encodeHTML) are modelled from their
    contracts and marked as such. *)

From Stdlib Require Import ZArith Lia Ascii.
From stdpp Require Import base option list strings pretty gmap.

#[local] Set Warnings "-register-all".

Local Open Scope string_scope.
Local Open Scope Z_scope.

(** ** JavaScript values *)

Module Js.

(** Numbers are the integer-valued ones plus NaN; objects are property lists
    in insertion order. *)
Inductive JsVal : Type :=
| JUndefined
| JNull
| JBool (b : bool)
| JNum (z : Z)
| JNaN
| JStr (s : string)
| JArr (elems : list JsVal)
| JObj (props : list (string * JsVal)).

(** ToBoolean. *)
Definition truthy (v : JsVal) : bool :=
  match v with
  | JUndefined | JNull | JNaN => false
  | JBool b => b
  | JNum z => negb (z =? 0)
  | JStr s => negb (String.eqb s EmptyString)
  | JArr _ | JObj _ => true
  end.

(** [v == null]. *)
Definition isNullish (v : JsVal) : bool :=
  match v with
  | JUndefined | JNull => true
  | _ => false
  end.

(** [a && b]. *)
Definition js_and (a b : JsVal) : JsVal := if truthy a then b else a.

(** [a instanceof Array]. *)
Definition instanceofArray (a : JsVal) : bool :=
  match a with
  | JArr _ => true
  | _ => false
  end.

(** [a[i]] for an array [a]; a missing slot reads as [undefined]. *)
Definition index (a : JsVal) (i : nat) : JsVal :=
  match a with
  | JArr elems => default JUndefined (elems !! i)
  | _ => JUndefined
  end.

Fixpoint assoc (k : string) (props : list (string * JsVal)) : JsVal :=
  match props with
  | [] => JUndefined
  | (k', v) :: rest => if String.eqb k k' then v else assoc k rest
  end.

(** [obj[key]] on an object; any other receiver has no own property here. *)
Definition prop (obj : JsVal) (key : string) : JsVal :=
  match obj with
  | JObj props => assoc key props
  | _ => JUndefined
  end.

(** [v === 'lit'] against a string literal. *)
Definition isStr (v : JsVal) (lit : string) : bool :=
  match v with
  | JStr s => String.eqb s lit
  | _ => false
  end.

End Js.

Export Js.

(** ** model/Model *)

Module ModelM.

(** Modelled from the spec: the Model class of model/Model (not under src/),
    "a declarative per-item style/model resolver (getItemModel, getShallow,
    get(path)) supporting dotted-path option lookup and a swappable parent
    model for style fallback". *)
Inductive Model : Type :=
  mkModel { m_option : JsVal; parentModel : option Model }.

(** The loop of [_doGet]: descend along [pathArr], stopping at the first
    nullish value; a non-object on the way reads as [null], and an array,
    being an object, is asked for the property and has none by that name. *)
Fixpoint descend (obj : JsVal) (pathArr : list string) : JsVal :=
  match pathArr with
  | [] => obj
  | key :: rest =>
      if String.eqb key EmptyString then descend obj rest
      else
        let obj' := match obj with
                    | JObj _ | JArr _ => prop obj key
                    | _ => JNull
                    end in
        if isNullish obj' then obj' else descend obj' rest
  end.

(** Modelled from the spec: [Model.get(path)], with fallback to the parent
    model when the own option yields a nullish value. *)
Fixpoint get (m : Model) (pathArr : list string) : JsVal :=
  let obj := descend (m_option m) pathArr in
  if isNullish obj then
    match parentModel m with
    | Some p => get p pathArr
    | None => obj
    end
  else obj.

(** Modelled from the spec: [Model.getShallow(key, ignoreParent)]. *)
Fixpoint getShallow (m : Model) (key : string) (ignoreParent : bool) : JsVal :=
  let val := if isNullish (m_option m) then m_option m
             else prop (m_option m) key in
  if isNullish val && negb ignoreParent then
    match parentModel m with
    | Some p => getShallow p key false
    | None => val
    end
  else val.

(** The assignment [model.parentModel = p]. *)
Definition setParentModel (m : Model) (p : Model) : Model :=
  mkModel (m_option m) (Some p).

End ModelM.

Export ModelM.

(** ** data/List, as far as the visual stage uses it *)

Module ListM.

(** Modelled from the spec: the List data table of data/List (not under
    src/): raw data items by row index, the [hasItemOption] flag, the
    per-series visuals and the per-row visual overrides keyed by row index. *)
Record List : Type := mkList {
  rawData : list JsVal;
  hostModel : Model;
  hasItemOption : bool;
  _visual : gmap string JsVal;
  _itemVisuals : gmap nat (gmap string JsVal)
}.

(** Modelled from the spec: [List.getRawDataItem(index)]. *)
Definition getRawDataItem (data : List) (idx : nat) : JsVal :=
  default JUndefined (rawData data !! idx).

(** Modelled from the spec: [List.getItemModel(idx)], a fresh model over the
    row's raw item whose parent is the host model. *)
Definition getItemModel (data : List) (idx : nat) : Model :=
  mkModel (getRawDataItem data idx) (Some (hostModel data)).

(** Modelled from the spec: [List.setVisual] and [List.getVisual], the
    per-series visuals. *)
Definition setVisual (data : List) (key : string) (val : JsVal) : List :=
  mkList (rawData data) (hostModel data) (hasItemOption data)
         (<[key := val]> (_visual data)) (_itemVisuals data).

Definition getVisual (data : List) (key : string) : JsVal :=
  default JUndefined (_visual data !! key).

(** Modelled from the spec: [List.setItemVisual(idx, key, value)], which
    writes the slot of row [idx] whatever [value] is. *)
Definition setItemVisual (data : List) (idx : nat) (key : string) (val : JsVal)
  : List :=
  let itemVisual := default ∅ (_itemVisuals data !! idx) in
  mkList (rawData data) (hostModel data) (hasItemOption data)
         (_visual data)
         (<[idx := <[key := val]> itemVisual]> (_itemVisuals data)).

(** The row's own slot for [key], if one was ever written. *)
Definition itemVisualSlot (data : List) (idx : nat) (key : string)
  : option JsVal :=
  _itemVisuals data !! idx ≫= λ itemVisual, itemVisual !! key.

(** Modelled from the spec: [List.getItemVisual(idx, key)]; a nullish or
    missing row value falls back to the series visual ("otherwise the
    series-level default silently applies"). *)
Definition getItemVisual (data : List) (idx : nat) (key : string) : JsVal :=
  match itemVisualSlot data idx key with
  | Some val => if isNullish val then getVisual data key else val
  | None => getVisual data key
  end.

End ListM.

Export ListM.

(** ** The lines visual stage handler (src/unnamed/part_000) *)

Module LinesVisual.

Definition normalize (a : JsVal) : JsVal :=
  if negb (instanceofArray a) then JArr [a; a] else a.

Definition opacityQuery : list string := ["lineStyle"; "opacity"].

Definition dataEach (data : List) (idx : nat) : List :=
  let itemModel := getItemModel data idx in
  let symbolType := normalize (getShallow itemModel "symbol" true) in
  let symbolSize := normalize (getShallow itemModel "symbolSize" true) in
  let opacity := get itemModel opacityQuery in
  let data := if truthy (index symbolType 0)
              then setItemVisual data idx "fromSymbol" (index symbolType 0)
              else data in
  let data := if truthy (index symbolType 1)
              then setItemVisual data idx "toSymbol" (index symbolType 1)
              else data in
  let data := if truthy (index symbolSize 0)
              then setItemVisual data idx "fromSymbolSize" (index symbolSize 0)
              else data in
  let data := if truthy (index symbolSize 1)
              then setItemVisual data idx "toSymbolSize" (index symbolSize 1)
              else data in
  setItemVisual data idx "opacity" opacity.

(** What [reset] hands back to the scheduler. *)
Record StageResult : Type := mkStageResult {
  res_dataEach : option (List → nat → List)
}.

(** [reset(seriesModel)]; [data] is [seriesModel.getData()], returned with
    the series-level visuals written. *)
Definition reset (seriesModel : Model) (data : List) : List * StageResult :=
  let symbolType := normalize (get seriesModel ["symbol"]) in
  let symbolSize := normalize (get seriesModel ["symbolSize"]) in
  let data := setVisual data "fromSymbol" (js_and symbolType (index symbolType 0)) in
  let data := setVisual data "toSymbol" (js_and symbolType (index symbolType 1)) in
  let data := setVisual data "fromSymbolSize" (js_and symbolSize (index symbolSize 0)) in
  let data := setVisual data "toSymbolSize" (js_and symbolSize (index symbolSize 1)) in
  let data := setVisual data "opacity" (get seriesModel opacityQuery) in
  (data, mkStageResult (if hasItemOption data then Some dataEach else None)).

(** The four endpoint attributes with the normalized override of row [idx]. *)
Definition symbolOverrides (data : List) (idx : nat) : list (string * JsVal) :=
  let itemModel := getItemModel data idx in
  let symbolType := normalize (getShallow itemModel "symbol" true) in
  let symbolSize := normalize (getShallow itemModel "symbolSize" true) in
  [ ("fromSymbol", index symbolType 0); ("toSymbol", index symbolType 1);
    ("fromSymbolSize", index symbolSize 0); ("toSymbolSize", index symbolSize 1) ].

End LinesVisual.

(** ** Option items of the tree series (src/chart/tree/TreeSeries.ts) *)

Module NodeItem.

(** Modelled from the spec: the value a node resolves to in the data table
    ([node.getValue()], data/Tree and data/List are not under src/): a
    number, NaN, or unset. A number is an integer, any other finite number
    (given as a fraction), or an infinity. *)
Inductive ParsedValue : Type :=
| PNum (z : Z)
| PReal (q : QArith_base.Q)
| PInfinity (negative : bool)
| PNaN
| PUndefined
| PNull.

(** [TreeSeriesNodeItemOption]. An absent [children] reads as the empty
    list; [props] holds the display overrides (symbol, itemStyle, lineStyle,
    label, emphasis) the item model resolves. *)
Inductive TreeSeriesNodeItemOption : Type := mkItem {
  name : option string;
  value : ParsedValue;
  collapsed : option bool;
  children : list TreeSeriesNodeItemOption;
  props : list (string * JsVal)
}.

(** The items in the order [buildHierarchy] pushes them. *)
Fixpoint flatten (o : TreeSeriesNodeItemOption) : list TreeSeriesNodeItemOption :=
  o :: flat_map flatten (children o).

(** The item reached from [o] by following child positions. *)
Fixpoint itemAt (o : TreeSeriesNodeItemOption) (path : list nat)
  : option TreeSeriesNodeItemOption :=
  match path with
  | [] => Some o
  | k :: rest =>
      match children o !! k with
      | Some c => itemAt c rest
      | None => None
      end
  end.

End NodeItem.

Abbreviation TreeSeriesNodeItemOption := NodeItem.TreeSeriesNodeItemOption.
Abbreviation ParsedValue := NodeItem.ParsedValue.

(** ** data/Tree *)

Module Tree.

(** Modelled from the spec: the TreeNode of data/Tree (not under src/):
    "each node has depth (root = 0, increasing toward leaves), isExpand, a
    back-reference to its backing row, and a parent reference (non-owning)".
    A reference to a node is its slot in [tree._nodes], which is also its
    [dataIndex]. *)
Inductive TreeNode : Type := mkTreeNode {
  name : string;
  depth : Z;
  dataIndex : nat;
  parentNode : option nat;
  isExpand : bool;
  children : list TreeNode
}.

Definition setIsExpand (node : TreeNode) (b : bool) : TreeNode :=
  mkTreeNode (name node) (depth node) (dataIndex node) (parentNode node) b
             (children node).

Definition setChildren (node : TreeNode) (cs : list TreeNode) : TreeNode :=
  mkTreeNode (name node) (depth node) (dataIndex node) (parentNode node)
             (isExpand node) cs.

(** A left-to-right pass over a list that threads a state. *)
Definition mapAccum {A B S : Type} (f : A → S → B * S)
  : list A → S → list B * S :=
  fix go (l : list A) (s : S) : list B * S :=
    match l with
    | [] => ([], s)
    | a :: l' =>
        let '(b, s1) := f a s in
        let '(bs, s2) := go l' s1 in
        (b :: bs, s2)
    end.

(** Modelled from the spec: [buildHierarchy] of [Tree.createTree]. The state
    is [listData]; a node is pushed together with its option item, so its
    slot is the length of [listData] at that moment. [depth] is what
    [updateDepthAndHeight(0)] assigns afterwards. *)
Fixpoint buildHierarchy (dataNode : TreeSeriesNodeItemOption)
    (parent : option nat) (d : Z) (listData : list TreeSeriesNodeItemOption)
  : TreeNode * list TreeSeriesNodeItemOption :=
  let idx := length listData in
  let '(kids, listData') :=
    mapAccum (λ c acc, buildHierarchy c (Some idx) (d + 1) acc)
             (NodeItem.children dataNode) (listData ++ [dataNode])%list in
  (mkTreeNode (default EmptyString (NodeItem.name dataNode)) d idx parent false
              kids,
   listData').

(** Modelled from the spec: the Tree of data/Tree with its backing table:
    [root], the raw items by row index, the series model that hosts the
    table and the model of the leaves style bundle. *)
Record Tree : Type := mkTree {
  root : TreeNode;
  listData : list TreeSeriesNodeItemOption;
  hostModel : Model;
  leavesModel : Model
}.

(** Modelled from the spec: [createTree(rootOption, seriesOwner, config)]. *)
Definition createTree (dataRoot : TreeSeriesNodeItemOption) (hostModel : Model)
    (leaves : JsVal) : Tree :=
  let '(root, listData) := buildHierarchy dataRoot None 0 [] in
  mkTree root listData hostModel (mkModel leaves (Some hostModel)).

(** Modelled from the spec: [tree._nodes], the nodes in the order they were
    pushed, which is pre-order. *)
Fixpoint preorder (node : TreeNode) : list TreeNode :=
  node :: flat_map preorder (children node).

Definition _nodes (tree : Tree) : list TreeNode := preorder (root tree).

(** Modelled from the spec: [tree.getNodeByDataIndex(dataIndex)]; a missing
    slot reads as [undefined]. *)
Definition getNodeByDataIndex (tree : Tree) (dataIndex : nat) : option TreeNode :=
  _nodes tree !! dataIndex.

(** Modelled from the spec: [tree.data.getRawDataItem(index)], the option
    item the row was built from. *)
Definition getRawDataItem (tree : Tree) (idx : nat)
  : option TreeSeriesNodeItemOption :=
  listData tree !! idx.

(** Modelled from the spec: [node.getValue()], the resolved value of the
    node's row. *)
Definition getValue (tree : Tree) (node : TreeNode) : ParsedValue :=
  match getRawDataItem tree (dataIndex node) with
  | Some item => NodeItem.value item
  | None => NodeItem.PUndefined
  end.

(** Modelled from the spec: [node.getLeavesModel()], the model of the leaves
    style bundle of the node's tree. *)
Definition getLeavesModel (tree : Tree) (node : TreeNode) : Model :=
  leavesModel tree.

(** Modelled from the spec: [eachNode('preorder', cb)]. The callback may
    update the visited node and the variables it closes over; no callback of
    the series touches [node.children], so the children visited are those of
    the node as it was. *)
Fixpoint eachNode {S : Type} (cb : TreeNode → S → TreeNode * S)
    (node : TreeNode) (s : S) : TreeNode * S :=
  let '(node', s1) := cb node s in
  let '(kids, s2) := mapAccum (eachNode cb) (children node) s1 in
  (setChildren node' kids, s2).

(** The node reached from [node] by following child positions. *)
Fixpoint nodeAt (node : TreeNode) (path : list nat) : option TreeNode :=
  match path with
  | [] => Some node
  | k :: rest =>
      match children node !! k with
      | Some c => nodeAt c rest
      | None => None
      end
  end.

(** [m] is reachable from [n] through [children]. *)
Inductive reachable (n : TreeNode) : TreeNode → Prop :=
| reach_self : reachable n n
| reach_child (p c : TreeNode) :
    reachable n p → c ∈ children p → reachable n c.

(** [descends top anc node]: [anc] lists, top-down, the nodes from [top] to
    the parent of [node]. *)
Inductive descends (top : TreeNode) : list TreeNode → TreeNode → Prop :=
| desc_here : descends top [] top
| desc_child (anc : list TreeNode) (p c : TreeNode) :
    descends top anc p → c ∈ children p → descends top (anc ++ [p]) c.

(** Modelled from the spec: the [getItemModel] of the tree's table before
    it is wrapped: a fresh model over the display overrides of the row's
    item, whose parent is the series model. *)
Definition getItemModel (tree : Tree) (idx : nat) : Model :=
  mkModel (match getRawDataItem tree idx with
           | Some item => JObj (NodeItem.props item)
           | None => JUndefined
           end)
          (Some (hostModel tree)).

(** Modelled from the spec: [wrapMethod(name, interceptor)]: the wrapped
    method passes the original result and the arguments to the interceptor. *)
Definition wrapMethod {A B C : Type} (original : A → B) (inject : B → A → C)
  : A → C :=
  λ a, inject (original a) a.

(** The shape [createTree] gives a tree: the slots of [tree._nodes] are the
    data indices, and every child refers back to its parent, which was
    pushed before it. *)
Definition indexed (root : TreeNode) : Prop :=
  map dataIndex (preorder root) = seq 0 (length (preorder root)).

Definition linked (root : TreeNode) : Prop :=
  ∀ m c, m ∈ preorder root → c ∈ children m →
    parentNode c = Some (dataIndex m) ∧ (dataIndex m < dataIndex c)%nat.

End Tree.

Abbreviation TreeNode := Tree.TreeNode.

(** ** util/format *)

Module Format.

(** Modelled from the spec: [encodeHTML] of util/format (not under src/),
    which HTML-escapes the final tooltip string: the five characters
    ampersand, angle brackets and both quotes become entities. *)
Definition escapeChar (c : Ascii.ascii) : string :=
  if Ascii.eqb c "&"%char then "&amp;"
  else if Ascii.eqb c "<"%char then "&lt;"
  else if Ascii.eqb c ">"%char then "&gt;"
  else if Ascii.eqb c (Ascii.ascii_of_nat 34) then "&quot;"
  else if Ascii.eqb c "'"%char then "&#39;"
  else String c EmptyString.

Fixpoint encodeHTML (source : string) : string :=
  match source with
  | EmptyString => EmptyString
  | String c rest => escapeChar c +:+ encodeHTML rest
  end.

(** [isNaN(value)]: [undefined] converts to NaN, [null] to 0. *)
Definition isNaN (value : ParsedValue) : bool :=
  match value with
  | NodeItem.PNaN | NodeItem.PUndefined => true
  | NodeItem.PNum _ | NodeItem.PReal _ | NodeItem.PInfinity _
  | NodeItem.PNull => false
  end.

(** [value == null]. *)
Definition isNull (value : ParsedValue) : bool :=
  match value with
  | NodeItem.PUndefined | NodeItem.PNull => true
  | NodeItem.PNum _ | NodeItem.PReal _ | NodeItem.PInfinity _
  | NodeItem.PNaN => false
  end.

(** [Number::toString] on an integer. A safe integer (below 2^53 in absolute
    value) prints as its decimal digits. Any other finite number prints in
    a way that is not modelled here (digits of the nearest double, a
    fraction part, exponent notation from 10^21 on): its rendering is the
    parameter [unsafe]. *)
Definition integerToString (unsafe : QArith_base.Q → string) (z : Z) : string :=
  if Z.abs z <? 2 ^ 53 then pretty z
  else unsafe (QArith_base.Qmake z 1).

(** [Number::toString] on a finite number: an integer-valued one prints as
    that integer does. *)
Definition numberToString (unsafe : QArith_base.Q → string)
    (q : QArith_base.Q) : string :=
  let r := Qreduction.Qred q in
  if (QArith_base.Qden r =? 1)%positive
  then integerToString unsafe (QArith_base.Qnum r)
  else unsafe q.

(** [String(value)], as string concatenation converts its operand. *)
Definition toString (unsafe : QArith_base.Q → string) (value : ParsedValue)
  : string :=
  match value with
  | NodeItem.PNum z => integerToString unsafe z
  | NodeItem.PReal q => numberToString unsafe q
  | NodeItem.PInfinity negative => if negative then "-Infinity" else "Infinity"
  | NodeItem.PNaN => "NaN"
  | NodeItem.PUndefined => "undefined"
  | NodeItem.PNull => "null"
  end.

End Format.

(** ** TreeSeriesModel (src/chart/tree/TreeSeries.ts) *)

Module TreeSeries.

Import Tree.

(** The fields of [TreeSeriesOption] that [getInitialData] reads. *)
Record TreeSeriesOption : Type := mkOption {
  name : option string;
  data : list TreeSeriesNodeItemOption;
  leaves : JsVal;
  expandAndCollapse : option bool;
  initialTreeDepth : option Z
}.

(** How a call ends: with a value, with the TypeError JavaScript raises on
    reading a property of [undefined], or without an answer within the steps
    allowed. *)
Inductive Outcome (A : Type) : Type :=
| Returned (a : A)
| TypeError
| OutOfFuel.

Arguments Returned {A} a.
Arguments TypeError {A}.
Arguments OutOfFuel {A}.

(** The virtual root [{name: option.name, children: option.data}]. *)
Definition virtualRoot (option : TreeSeriesOption) : TreeSeriesNodeItemOption :=
  NodeItem.mkItem (name option) NodeItem.PUndefined None (data option) [].

(** The interceptor [beforeLink] installs on [getItemModel]. It looks [tree]
    up when it is called, so it sees the nodes as they then are. *)
Definition beforeLink (tree : Tree) (getItemModel : nat → Model)
  : nat → Outcome Model :=
  wrapMethod getItemModel (λ model idx,
    match getNodeByDataIndex tree idx with
    | None => TypeError
    | Some node =>
        let leavesModel := getLeavesModel tree node in
        Returned (if (length (children node) =? 0)%nat || negb (isExpand node)
                  then setParentModel model leavesModel
                  else model)
    end).

(** The first traversal: the largest depth seen, starting from 0. *)
Definition treeDepth (tree : Tree) : Z :=
  snd (eachNode (λ node treeDepth,
                   (node, if depth node >? treeDepth then depth node
                          else treeDepth))
                (root tree) 0).

(** [(expandAndCollapse && option.initialTreeDepth >= 0)
      ? option.initialTreeDepth : treeDepth]; an unset depth compares false. *)
Definition expandTreeDepth (option : TreeSeriesOption) (treeDepth : Z) : Z :=
  match expandAndCollapse option, initialTreeDepth option with
  | Some true, Some d => if d >=? 0 then d else treeDepth
  | _, _ => treeDepth
  end.

(** The callback of the second traversal. *)
Definition initExpand (tree : Tree) (expandTreeDepth : Z) (node : TreeNode)
  : TreeNode :=
  let item := getRawDataItem tree (dataIndex node) in
  setIsExpand node
    match item with
    | Some item =>
        match NodeItem.collapsed item with
        | Some collapsed => negb collapsed
        | None => depth node <=? expandTreeDepth
        end
    | None => depth node <=? expandTreeDepth
    end.

Definition getInitialData (this : Model) (option : TreeSeriesOption) : Tree :=
  let root := virtualRoot option in
  let leaves := if truthy (leaves option) then leaves option else JObj [] in
  let tree := createTree root this leaves in
  let treeDepth := treeDepth tree in
  let expandTreeDepth := expandTreeDepth option treeDepth in
  let root' :=
    fst (eachNode (λ node (_ : unit), (initExpand tree expandTreeDepth node, tt))
                  (Tree.root tree) tt) in
  mkTree root' (listData tree) (hostModel tree) (leavesModel tree).

(** The table's [getItemModel] after [beforeLink] has wrapped it. *)
Definition getItemModel (tree : Tree) : nat → Outcome Model :=
  beforeLink tree (Tree.getItemModel tree).

Definition getOrient (this : Model) : JsVal :=
  let orient := get this ["orient"] in
  if isStr orient "horizontal" then JStr "LR"
  else if isStr orient "vertical" then JStr "TB"
  else orient.

(** [node !== realRoot]: two references differ unless they name the same
    slot of [tree._nodes]. *)
Definition sameNode (node : TreeNode) (realRoot : option TreeNode) : bool :=
  match realRoot with
  | Some r => (dataIndex node =? dataIndex r)%nat
  | None => false
  end.

(** The loop of [formatTooltip]; each iteration consumes one unit of
    [fuel]. *)
Fixpoint walkUp (fuel : nat) (tree : Tree) (realRoot : option TreeNode)
    (node : option TreeNode) (name : string) : Outcome string :=
  match fuel with
  | O => OutOfFuel
  | S fuel' =>
      match node with
      | None => Returned name
      | Some n =>
          if sameNode n realRoot then Returned name
          else
            match parentNode n with
            | None => TypeError
            | Some p =>
                match getNodeByDataIndex tree p with
                | None => TypeError
                | Some parent =>
                    walkUp fuel' tree realRoot (Some parent)
                           (Tree.name parent +:+ "." +:+ name)
                end
            end
      end
  end.

Definition valueSuffix (unsafe : QArith_base.Q → string) (value : ParsedValue)
  : string :=
  if Format.isNaN value || Format.isNull value then EmptyString
  else " : " +:+ Format.toString unsafe value.

(** [unsafe] is the rendering of numbers that are not safe integers, see
    [Format.integerToString]. *)
Definition formatTooltip (unsafe : QArith_base.Q → string) (tree : Tree)
    (dataIndex : nat) : Outcome string :=
  let realRoot := children (root tree) !! 0%nat in
  match getNodeByDataIndex tree dataIndex with
  | None => TypeError
  | Some node =>
      let value := getValue tree node in
      let name := Tree.name node in
      match walkUp (S (length (_nodes tree))) tree realRoot (Some node) name with
      | Returned name =>
          Returned (Format.encodeHTML (name +:+ valueSuffix unsafe value))
      | TypeError => TypeError
      | OutOfFuel => OutOfFuel
      end
  end.

End TreeSeries.

(** ** Sample inputs *)

Module Sample.

Definition item (name : string) (value : ParsedValue) (collapsed : option bool)
    (children : list TreeSeriesNodeItemOption) : TreeSeriesNodeItemOption :=
  NodeItem.mkItem (Some name) value collapsed children [].

(** A series whose data is the chain A, B (value 5), C; [collapsed] is the
    field of C, three levels below the virtual root, and the initial depth
    is 2. *)
Definition chain (collapsed : option bool) : TreeSeries.TreeSeriesOption :=
  TreeSeries.mkOption (Some "tree")
    [item "A" NodeItem.PUndefined None
       [item "B" (NodeItem.PNum 5) None
          [item "C" NodeItem.PNaN collapsed []]]]
    JUndefined (Some true) (Some 2).

(** A series model without options of its own. *)
Definition plainSeries : Model := mkModel (JObj []) None.

(** The samples hold safe integers only, so the rendering of other numbers
    is never asked for; this one stands in for it. *)
Definition unsafeNumber (q : QArith_base.Q) : string := "?".

(** The nodes A, B and C of the tree built from [chain], with the
    [isExpand] that C ends up with. *)
Definition nodeC (isExpand : bool) : TreeNode :=
  Tree.mkTreeNode "C" 3 3 (Some 2%nat) isExpand [].

Definition nodeB (isExpand : bool) : TreeNode :=
  Tree.mkTreeNode "B" 2 2 (Some 1%nat) true [nodeC isExpand].

Definition nodeA (isExpand : bool) : TreeNode :=
  Tree.mkTreeNode "A" 1 1 (Some 0%nat) true [nodeB isExpand].

End Sample.

(** ** The setters of TreeSeriesModel (src/chart/tree/TreeSeries.ts) *)

Module TreeSeriesModel.

Import TreeSeries.

(** [obj[key] = val] on the properties of an object: an existing property
    keeps its place, a new one comes last. *)
Fixpoint assign (key : string) (val : JsVal) (props : list (string * JsVal))
  : list (string * JsVal) :=
  match props with
  | [] => [(key, val)]
  | (k, v) :: rest =>
      if String.eqb key k then (k, val) :: rest
      else (k, v) :: assign key val rest
  end.

(** [this.option[key] = val]. Module code is strict: the assignment throws
    on [undefined], [null] and on a primitive. The option of a series is an
    object; an array receiver is left as it is, since [JArr] holds no named
    property. *)
Definition assignOption (this : Model) (key : string) (val : JsVal)
  : Outcome Model :=
  match m_option this with
  | JObj props =>
      Returned (mkModel (JObj (assign key val props)) (parentModel this))
  | JArr _ => Returned this
  | _ => TypeError
  end.

Definition setZoom (this : Model) (zoom : JsVal) : Outcome Model :=
  assignOption this "zoom" zoom.

Definition setCenter (this : Model) (center : JsVal) : Outcome Model :=
  assignOption this "center" center.

End TreeSeriesModel.

(** ** The writes of one per-row pass, gathered *)

Module RowWrites.

(** The table after the entries of [w] have been written to row [idx], over
    whatever the row held. *)
Definition putRow (w : gmap string JsVal) (data : List) (idx : nat) : List :=
  mkList (rawData data) (hostModel data) (hasItemOption data) (_visual data)
         (<[idx := w ∪ default ∅ (_itemVisuals data !! idx)]>
            (_itemVisuals data)).

(** The write [dataEach] guards with [val && ...]. *)
Definition guarded (key : string) (val : JsVal) : gmap string JsVal :=
  if truthy val then {[key := val]} else ∅.

(** Everything [dataEach] writes for a row with the given item model; the
    later write is the outer one. *)
Definition itemWrites (itemModel : Model) : gmap string JsVal :=
  let symbolType := LinesVisual.normalize (getShallow itemModel "symbol" true) in
  let symbolSize :=
    LinesVisual.normalize (getShallow itemModel "symbolSize" true) in
  {["opacity" := get itemModel LinesVisual.opacityQuery]}
  ∪ (guarded "toSymbolSize" (index symbolSize 1)
     ∪ (guarded "fromSymbolSize" (index symbolSize 0)
        ∪ (guarded "toSymbol" (index symbolType 1)
           ∪ guarded "fromSymbol" (index symbolType 0)))).

End RowWrites.

(** * Properties of the lines visual stage handler *)

Section LinesVisualFacts.

Import LinesVisual.

Implicit Types (data : List) (idx : nat) (key : string) (val : JsVal).

(** Decide which of the writes of a pass hits a given slot. *)
Ltac slot_cases :=
  repeat match goal with
         | |- context [decide ?P] =>
             destruct (decide P) as [[_ ?]|?]; [try discriminate|]
         end;
  first [ reflexivity
        | exfalso;
          match goal with
          | H : ¬ _ |- _ => apply H; split; reflexivity
          end ].

Lemma slot_setItemVisual data idx key val idx' key' :
  itemVisualSlot (setItemVisual data idx key val) idx' key'
  = if decide (idx = idx' ∧ key = key') then Some val
    else itemVisualSlot data idx' key'.
Proof.
  unfold itemVisualSlot, setItemVisual; simpl.
  destruct (decide (idx = idx')) as [->|Hne].
  - rewrite lookup_insert_eq; simpl.
    destruct (decide (key = key')) as [->|Hk].
    + rewrite lookup_insert_eq. by rewrite decide_True.
    + rewrite lookup_insert_ne by done.
      rewrite decide_False by (intros [_ ?]; done).
      by destruct (_itemVisuals data !! idx').
  - rewrite lookup_insert_ne by done.
    by rewrite decide_False by (intros [? _]; done).
Qed.

Lemma getVisual_setItemVisual data idx key val key' :
  getVisual (setItemVisual data idx key val) key' = getVisual data key'.
Proof. reflexivity. Qed.

Lemma getVisual_dataEach data idx key :
  getVisual (dataEach data idx) key = getVisual data key.
Proof.
  unfold dataEach.
  repeat match goal with
         | |- context [if truthy ?v then _ else _] => destruct (truthy v)
         end;
    by rewrite ?getVisual_setItemVisual.
Qed.

Lemma visual_setVisual data key val key' :
  _visual (setVisual data key val) !! key'
  = if decide (key = key') then Some val else _visual data !! key'.
Proof.
  unfold setVisual; simpl. case_decide as H.
  - subst. apply lookup_insert_eq.
  - by apply lookup_insert_ne.
Qed.

Lemma truthy_not_nullish val : truthy val = true → isNullish val = false.
Proof. by destruct val. Qed.

(** The slots of row [idx] after the per-row pass, attribute by attribute. *)
Lemma slot_dataEach data idx :
  let itemModel := getItemModel data idx in
  let symbolType := normalize (getShallow itemModel "symbol" true) in
  let symbolSize := normalize (getShallow itemModel "symbolSize" true) in
  let keep key val :=
    itemVisualSlot (dataEach data idx) idx key
    = if truthy val then Some val else itemVisualSlot data idx key in
  keep "fromSymbol" (index symbolType 0)
  ∧ keep "toSymbol" (index symbolType 1)
  ∧ keep "fromSymbolSize" (index symbolSize 0)
  ∧ keep "toSymbolSize" (index symbolSize 1)
  ∧ itemVisualSlot (dataEach data idx) idx "opacity"
    = Some (get itemModel opacityQuery).
Proof.
  intros itemModel symbolType symbolSize keep. subst keep. unfold dataEach.
  fold itemModel. fold symbolType. fold symbolSize.
  destruct (truthy (index symbolType 0)), (truthy (index symbolType 1)),
    (truthy (index symbolSize 0)), (truthy (index symbolSize 1));
    repeat split; rewrite ?slot_setItemVisual; slot_cases.
Qed.

(** C7. [normalize] maps a scalar [a] to the pair [[a, a]] and returns an
    array unchanged; [reset] writes the five series-level visuals
    unconditionally, each slot holding the resolved value; so a series with
    [symbol: s] gets [fromSymbol = toSymbol = s], and a series with
    [symbol: [a, b]] gets [fromSymbol = a] and [toSymbol = b]. *)
Theorem normalize_and_series_visuals (seriesModel : Model) data :
  (∀ a, normalize a = match a with JArr _ => a | _ => JArr [a; a] end)
  ∧ (let symbolType := normalize (get seriesModel ["symbol"]) in
     let symbolSize := normalize (get seriesModel ["symbolSize"]) in
     let data' := (reset seriesModel data).1 in
     _visual data' !! "fromSymbol" = Some (index symbolType 0)
     ∧ _visual data' !! "toSymbol" = Some (index symbolType 1)
     ∧ _visual data' !! "fromSymbolSize" = Some (index symbolSize 0)
     ∧ _visual data' !! "toSymbolSize" = Some (index symbolSize 1)
     ∧ _visual data' !! "opacity" = Some (get seriesModel opacityQuery))
  ∧ (∀ s rest parent,
       let series := mkModel (JObj (("symbol", JStr s) :: rest)) parent in
       getVisual (reset series data).1 "fromSymbol" = JStr s
       ∧ getVisual (reset series data).1 "toSymbol" = JStr s)
  ∧ (∀ a b rest parent,
       let series := mkModel (JObj (("symbol", JArr [a; b]) :: rest)) parent in
       getVisual (reset series data).1 "fromSymbol" = a
       ∧ getVisual (reset series data).1 "toSymbol" = b).
Proof.
  assert (Hslots : ∀ m : Model,
    let symbolType := normalize (get m ["symbol"]) in
    let symbolSize := normalize (get m ["symbolSize"]) in
    let data' := (reset m data).1 in
    _visual data' !! "fromSymbol" = Some (index symbolType 0)
    ∧ _visual data' !! "toSymbol" = Some (index symbolType 1)
    ∧ _visual data' !! "fromSymbolSize" = Some (index symbolSize 0)
    ∧ _visual data' !! "toSymbolSize" = Some (index symbolSize 1)
    ∧ _visual data' !! "opacity" = Some (get m opacityQuery)).
  { intros m symbolType symbolSize data'. subst data'. unfold reset.
    fold symbolType. fold symbolSize. cbn [fst].
    assert (Hst : ∀ x, js_and symbolType x = x).
    { intros x. subst symbolType. unfold normalize, js_and.
      by destruct (get m ["symbol"]). }
    assert (Hsz : ∀ x, js_and symbolSize x = x).
    { intros x. subst symbolSize. unfold normalize, js_and.
      by destruct (get m ["symbolSize"]). }
    rewrite !Hst, !Hsz.
    repeat split; rewrite !visual_setVisual;
      repeat match goal with
             | |- context [decide ?P] =>
                 destruct (decide P); [try discriminate|]
             end;
      done. }
  split; [by intros []|]. split; [apply Hslots|]. split.
  - intros s rest parent series.
    destruct (Hslots series) as (Hf & Ht & _).
    unfold getVisual. rewrite Hf, Ht. by subst series.
  - intros a b rest parent series.
    destruct (Hslots series) as (Hf & Ht & _).
    unfold getVisual. rewrite Hf, Ht. by subst series.
Qed.

Lemma getItemVisual_dataEach data idx key val :
  itemVisualSlot (dataEach data idx) idx key
  = (if truthy val then Some val else itemVisualSlot data idx key) →
  getItemVisual (dataEach data idx) idx key
  = if truthy val then val else getItemVisual data idx key.
Proof.
  intros Hslot. unfold getItemVisual. rewrite Hslot, getVisual_dataEach.
  destruct (truthy val) eqn:Ht; [|done].
  by rewrite (truthy_not_nullish _ Ht).
Qed.

(** C3. In the per-row pass each of fromSymbol, toSymbol, fromSymbolSize and
    toSymbolSize is overwritten exactly when the row's normalized override is
    truthy; with a falsy override (such as [0] or the empty string) the
    row's slot is left as it was, so the row still reads what it read before
    the pass, the series-level default when nothing else was written. *)
Theorem falsy_override_keeps_default data idx :
  truthy (JNum 0) = false
  ∧ truthy (JStr EmptyString) = false
  ∧ Forall (λ '(key, val),
        itemVisualSlot (dataEach data idx) idx key
        = (if truthy val then Some val else itemVisualSlot data idx key)
        ∧ getItemVisual (dataEach data idx) idx key
          = (if truthy val then val else getItemVisual data idx key)
        ∧ (itemVisualSlot data idx key = None →
           getItemVisual (dataEach data idx) idx key
           = if truthy val then val else getVisual data key))
      (symbolOverrides data idx).
Proof.
  split; [done|]. split; [done|].
  destruct (slot_dataEach data idx) as (H1 & H2 & H3 & H4 & _).
  unfold symbolOverrides.
  repeat apply Forall_cons_2; [| | | |apply Forall_nil_2];
    (split; [assumption|]);
    (split; [by apply getItemVisual_dataEach|]);
    intros Hnone;
    (erewrite getItemVisual_dataEach by eassumption);
    unfold getItemVisual; by rewrite Hnone.
Qed.

(** C8. [reset] hands back the per-row callback exactly when the table's
    [hasItemOption] flag is set, and [null] otherwise. *)
Theorem reset_dataEach_iff_hasItemOption (seriesModel : Model) data :
  res_dataEach (reset seriesModel data).2
  = (if hasItemOption data then Some dataEach else None)
  ∧ (is_Some (res_dataEach (reset seriesModel data).2)
     ↔ hasItemOption data = true).
Proof.
  unfold reset; cbn. destruct (hasItemOption data); (split; [done|]).
  - split; [done|]. by eexists.
  - split; [by intros [? ?]|done].
Qed.

(** C9, as the code has it. Each of the four endpoint attributes is written
    for a row only when the normalized override is truthy; otherwise the
    row's slot stays as it was and the row reads what it read before, the
    series-level visual when the slot was empty. Opacity is written for
    every processed row, with what the item model resolves: the row's own
    [lineStyle.opacity] when that is not nullish, else the value inherited
    from the series model; the row then reads that value, or the series
    visual when the value is nullish. *)
Theorem item_writes_of_dataEach data idx :
  Forall (λ '(key, val),
        itemVisualSlot (dataEach data idx) idx key
        = (if truthy val then Some val else itemVisualSlot data idx key)
        ∧ getItemVisual (dataEach data idx) idx key
          = (if truthy val then val else getItemVisual data idx key)
        ∧ (itemVisualSlot data idx key = None →
           getItemVisual (dataEach data idx) idx key
           = if truthy val then val else getVisual data key))
      (symbolOverrides data idx)
  ∧ itemVisualSlot (dataEach data idx) idx "opacity"
    = Some (get (getItemModel data idx) opacityQuery)
  ∧ get (getItemModel data idx) opacityQuery
    = (let own := descend (getRawDataItem data idx) opacityQuery in
       if isNullish own then get (hostModel data) opacityQuery else own)
  ∧ getItemVisual (dataEach data idx) idx "opacity"
    = (let opacity := get (getItemModel data idx) opacityQuery in
       if isNullish opacity then getVisual data "opacity" else opacity).
Proof.
  destruct (slot_dataEach data idx) as (H1 & H2 & H3 & H4 & H5).
  split; [|split; [exact H5|split]].
  - unfold symbolOverrides.
    repeat apply Forall_cons_2; [| | | |apply Forall_nil_2];
      (split; [assumption|]);
      (split; [by apply getItemVisual_dataEach|]);
      intros Hnone;
      (erewrite getItemVisual_dataEach by eassumption);
      unfold getItemVisual; by rewrite Hnone.
  - unfold getItemModel. cbn [get m_option parentModel].
    by destruct (isNullish _).
  - unfold getItemVisual. by rewrite H5, getVisual_dataEach.
Qed.

(** C9 fails for opacity: a row that sets no opacity of its own (here the
    row is [{coords: []}]) still gets its opacity slot written by the pass,
    with the series value [1] when the series has one and with [undefined]
    when it has none. *)
Lemma opacity_written_without_item_value :
  let row := JObj [("coords", JArr [])] in
  let withOpacity :=
    mkModel (JObj [("lineStyle", JObj [("opacity", JNum 1)])]) None in
  let without := mkModel (JObj []) None in
  let table series := (reset series (mkList [row] series true ∅ ∅)).1 in
  isNullish (descend row opacityQuery) = true
  ∧ itemVisualSlot (table withOpacity) 0 "opacity" = None
  ∧ itemVisualSlot (dataEach (table withOpacity) 0) 0 "opacity"
    = Some (JNum 1)
  ∧ itemVisualSlot (table without) 0 "opacity" = None
  ∧ itemVisualSlot (dataEach (table without) 0) 0 "opacity"
    = Some JUndefined.
Proof. vm_compute. by repeat split. Qed.

End LinesVisualFacts.

(** * Properties of [getOrient] *)

(** C10. [getOrient] turns ['horizontal'] into ['LR'] and ['vertical'] into
    ['TB'], and returns every other configured value as it is. *)
Theorem getOrient_backward_compatible (this : Model) :
  let orient := get this ["orient"] in
  (orient = JStr "horizontal" → TreeSeries.getOrient this = JStr "LR")
  ∧ (orient = JStr "vertical" → TreeSeries.getOrient this = JStr "TB")
  ∧ (orient ≠ JStr "horizontal" → orient ≠ JStr "vertical" →
     TreeSeries.getOrient this = orient).
Proof.
  intros orient. unfold TreeSeries.getOrient. fold orient.
  repeat split.
  - by intros ->.
  - by intros ->.
  - intros Hh Hv. destruct orient as [| | | | |s| |]; try done.
    cbn [isStr].
    destruct (String.eqb_spec s "horizontal") as [->|_]; [done|].
    by destruct (String.eqb_spec s "vertical") as [->|_].
Qed.

(** * Trees: traversal and construction *)

Section TreeFacts.

Import Tree.

Implicit Types (o item : TreeSeriesNodeItemOption) (n m c node : TreeNode)
  (path : list nat) (acc : list TreeSeriesNodeItemOption).

(** Induction over the nesting of items and of nodes. *)
Lemma item_nested_ind (P : TreeSeriesNodeItemOption → Prop) :
  (∀ o, Forall P (NodeItem.children o) → P o) → ∀ o, P o.
Proof.
  intros Hstep. fix IH 1. intros [nm v cl cs ps]. apply Hstep. simpl.
  induction cs as [|c cs IHcs]; constructor; [apply IH|apply IHcs].
Qed.

Lemma node_nested_ind (P : TreeNode → Prop) :
  (∀ n, Forall P (children n) → P n) → ∀ n, P n.
Proof.
  intros Hstep. fix IH 1. intros [nm d i p e cs]. apply Hstep. simpl.
  induction cs as [|c cs IHcs]; constructor; [apply IH|apply IHcs].
Qed.

(** *** The state-threading pass *)

Lemma mapAccum_cons {A B S : Type} (f : A → S → B * S) a l s :
  mapAccum f (a :: l) s
  = let '(b, s1) := f a s in
    let '(bs, s2) := mapAccum f l s1 in (b :: bs, s2).
Proof. reflexivity. Qed.

(** Every output of the pass comes from the input at the same position,
    run from a state between the first and the last one. *)
Lemma mapAccum_lookup {A B S : Type} (f : A → S → B * S) (R : S → S → Prop)
    `{!PreOrder R} (l : list A) :
  (∀ a s b s', a ∈ l → f a s = (b, s') → R s s') →
  ∀ s bs s', mapAccum f l s = (bs, s') →
    R s s' ∧ length bs = length l
    ∧ ∀ k b, bs !! k = Some b →
        ∃ a s1 s2, l !! k = Some a ∧ f a s1 = (b, s2) ∧ R s s1 ∧ R s2 s'.
Proof.
  induction l as [|a l IH]; intros Hstep s bs s' Hrun.
  - inversion Hrun; subst. repeat split; [reflexivity|]. by intros k b.
  - rewrite mapAccum_cons in Hrun.
    destruct (f a s) as [b0 s1] eqn:Hf.
    destruct (mapAccum f l s1) as [bs1 s2] eqn:Hl.
    inversion Hrun; subst.
    assert (R s s1) as Hs1 by (eapply Hstep; [left|done]).
    destruct (IH (λ a' t b' t' Hin, Hstep a' t b' t' (list_elem_of_further _ _ _ Hin))
                 _ _ _ Hl) as (Hs2 & Hlen & Hk).
    split; [by etrans|]. split; [simpl; by rewrite Hlen|].
    intros [|k] b Hb; simpl in Hb.
    + inversion Hb; subst. exists a, s, s1. repeat split; try done.
    + destruct (Hk _ _ Hb) as (a' & t1 & t2 & Ha & Hfa & Ht1 & Ht2).
      exists a', t1, t2. repeat split; try done. by etrans.
Qed.

(** *** Nodes, paths and the pre-order list *)

Lemma preorder_unfold n :
  preorder n = n :: flat_map preorder (children n).
Proof. by destruct n. Qed.

Lemma preorder_self n : n ∈ preorder n.
Proof. rewrite preorder_unfold. left. Qed.

Lemma preorder_child n c m :
  c ∈ children n → m ∈ preorder c → m ∈ preorder n.
Proof.
  intros Hc Hm. rewrite preorder_unfold. right.
  apply list_elem_of_In, in_flat_map. exists c.
  split; by apply list_elem_of_In.
Qed.

Lemma preorder_inv n m :
  m ∈ preorder n → m = n ∨ ∃ c, c ∈ children n ∧ m ∈ preorder c.
Proof.
  rewrite preorder_unfold. intros [->|Hin]%elem_of_cons; [by left|right].
  apply list_elem_of_In, in_flat_map in Hin as (c & Hc & Hm).
  exists c. split; by apply list_elem_of_In.
Qed.

Lemma preorder_trans n m c :
  m ∈ preorder n → c ∈ preorder m → c ∈ preorder n.
Proof.
  revert m c. induction n as [n IH] using node_nested_ind. intros m c Hm Hc.
  apply preorder_inv in Hm as [->|(k & Hk & Hm)]; [done|].
  eapply preorder_child; [done|].
  rewrite Forall_forall in IH. eapply IH; done.
Qed.

Lemma reachable_preorder n m : reachable n m ↔ m ∈ preorder n.
Proof.
  split.
  - induction 1 as [|p c _ IH Hc]; [apply preorder_self|].
    eapply preorder_trans; [done|]. eapply preorder_child; [done|].
    apply preorder_self.
  - revert m. induction n as [n IH] using node_nested_ind. intros m Hm.
    apply preorder_inv in Hm as [->|(c & Hc & Hm)]; [constructor|].
    rewrite Forall_forall in IH. specialize (IH c Hc m Hm).
    clear Hm. induction IH as [|p c' _ IHr Hc']; [|by econstructor].
    econstructor; [constructor|done].
Qed.

Lemma nodeAt_preorder n path m : nodeAt n path = Some m → m ∈ preorder n.
Proof.
  revert n. induction path as [|k path IH]; intros n Hat; simpl in Hat.
  - inversion Hat; subst. apply preorder_self.
  - destruct (children n !! k) as [c|] eqn:Hc; [|done].
    eapply preorder_child; [|by apply IH].
    by eapply list_elem_of_lookup_2.
Qed.

Lemma preorder_nodeAt n m : m ∈ preorder n → ∃ path, nodeAt n path = Some m.
Proof.
  revert m. induction n as [n IH] using node_nested_ind. intros m Hm.
  apply preorder_inv in Hm as [->|(c & Hc & Hm)]; [by exists []|].
  rewrite Forall_forall in IH. destruct (IH c Hc m Hm) as [path Hp].
  apply list_elem_of_lookup in Hc as [k Hk].
  exists (k :: path). simpl. by rewrite Hk.
Qed.

Lemma descends_preorder top anc node :
  descends top anc node → node ∈ preorder top.
Proof.
  induction 1 as [|anc p c _ IH Hc]; [apply preorder_self|].
  eapply preorder_trans; [done|]. eapply preorder_child; [done|].
  apply preorder_self.
Qed.

(** *** [eachNode] *)

Lemma eachNode_unfold {S : Type} (cb : TreeNode → S → TreeNode * S) n s :
  eachNode cb n s
  = let '(node', s1) := cb n s in
    let '(kids, s2) := mapAccum (eachNode cb) (children n) s1 in
    (setChildren node' kids, s2).
Proof. by destruct n. Qed.

Lemma setChildren_id n : setChildren n (children n) = n.
Proof. by destruct n. Qed.

(** A callback that only reads the node folds over the pre-order list and
    leaves the tree as it is. *)
Lemma eachNode_fold {S : Type} (f : TreeNode → S → S) n s :
  eachNode (λ node s, (node, f node s)) n s
  = (n, foldl (λ s node, f node s) s (preorder n)).
Proof.
  revert s. induction n as [n IH] using node_nested_ind. intros s.
  rewrite eachNode_unfold, preorder_unfold. cbn [foldl].
  generalize (f n s). clear s. intros s.
  assert (mapAccum (eachNode (λ node s, (node, f node s))) (children n) s
          = (children n,
             foldl (λ s node, f node s) s (flat_map preorder (children n))))
    as ->; [|by rewrite setChildren_id].
  revert s. induction IH as [|c cs Hc _ IHcs]; intros s; [done|].
  rewrite mapAccum_cons, Hc, IHcs. cbn [flat_map]. by rewrite foldl_app.
Qed.

(** The pass that updates every node with [g] and carries no state. *)
Local Abbreviation update g :=
  (λ n, (eachNode (λ node (_ : unit), (g node, tt)) n tt).1).

Lemma mapAccum_unit {A B : Type} (f : A → unit → B * unit) (l : list A) :
  mapAccum f l tt = (map (λ a, (f a tt).1) l, tt).
Proof.
  induction l as [|a l IH]; [done|].
  rewrite mapAccum_cons. cbn [map].
  destruct (f a tt) as [b []]. by rewrite IH.
Qed.

Lemma update_unfold (g : TreeNode → TreeNode) n :
  update g n = setChildren (g n) (map (update g) (children n)).
Proof. cbn beta. by rewrite eachNode_unfold, mapAccum_unit. Qed.

Lemma update_nodeAt (g : TreeNode → TreeNode) n path :
  nodeAt (update g n) path = update g <$> nodeAt n path.
Proof.
  revert n. induction path as [|k path IH]; intros n; [done|].
  rewrite update_unfold. cbn [nodeAt setChildren children].
  rewrite list_lookup_fmap. destruct (children n !! k) as [c|]; [|done].
  apply IH.
Qed.

Lemma update_preorder (g : TreeNode → TreeNode) n :
  preorder (update g n) = map (update g) (preorder n).
Proof.
  induction n as [n IH] using node_nested_ind.
  rewrite update_unfold, (preorder_unfold n), preorder_unfold.
  cbn [setChildren children map]. f_equal; [by rewrite <-update_unfold|].
  induction IH as [|c cs Hc _ IHcs]; [done|].
  cbn [map flat_map]. by rewrite map_app, Hc, IHcs.
Qed.

(** *** [buildHierarchy] *)

Lemma buildHierarchy_unfold o parent d acc :
  buildHierarchy o parent d acc
  = let '(kids, acc') :=
      mapAccum (λ ch a, buildHierarchy ch (Some (length acc)) (d + 1) a)
               (NodeItem.children o) (acc ++ [o])%list in
    (mkTreeNode (default EmptyString (NodeItem.name o)) d (length acc) parent
                false kids, acc').
Proof. by destruct o. Qed.

Lemma flatten_unfold o :
  NodeItem.flatten o = o :: flat_map NodeItem.flatten (NodeItem.children o).
Proof. by destruct o. Qed.

(** The run appends the items of [o], in pre-order, to [listData]. *)
Lemma buildHierarchy_listData o : ∀ parent d acc n acc',
  buildHierarchy o parent d acc = (n, acc') →
  acc' = (acc ++ NodeItem.flatten o)%list.
Proof.
  induction o as [o IH] using item_nested_ind. intros parent d acc n acc' Hrun.
  rewrite buildHierarchy_unfold in Hrun. rewrite flatten_unfold.
  destruct (mapAccum _ _ _) as [kids acc1] eqn:Hkids.
  inversion Hrun; subst; clear Hrun.
  enough (∀ a ks a', mapAccum (λ ch a0, buildHierarchy ch (Some (length acc))
                                          (d + 1) a0) (NodeItem.children o) a
                     = (ks, a') →
                     a' = (a ++ flat_map NodeItem.flatten (NodeItem.children o))%list)
    as Hall.
  { rewrite (Hall _ _ _ Hkids). symmetry. apply (app_assoc acc [o]). }
  clear Hkids. induction IH as [|ch cs Hc _ IHcs]; intros a ks a' Hks.
  - inversion Hks. by rewrite app_nil_r.
  - rewrite mapAccum_cons in Hks.
    destruct (buildHierarchy ch _ _ a) as [cn a1] eqn:Hcn.
    destruct (mapAccum _ cs a1) as [ks1 a2] eqn:Hks1.
    inversion Hks; subst. cbn [flat_map].
    rewrite (IHcs _ _ _ Hks1), (Hc _ _ _ _ _ Hcn). symmetry. apply app_assoc.
Qed.

Lemma buildHierarchy_prefix o parent d acc n acc' :
  buildHierarchy o parent d acc = (n, acc') → acc `prefix_of` acc'.
Proof. intros ->%buildHierarchy_listData. by eexists. Qed.

(** The node a run returns, and where its children come from. *)
Lemma buildHierarchy_root o parent d acc n acc' :
  buildHierarchy o parent d acc = (n, acc') →
  name n = default EmptyString (NodeItem.name o)
  ∧ depth n = d ∧ dataIndex n = length acc ∧ parentNode n = parent
  ∧ isExpand n = false
  ∧ length (children n) = length (NodeItem.children o)
  ∧ ∀ k cn, children n !! k = Some cn →
      ∃ ch a1 a2,
        NodeItem.children o !! k = Some ch
        ∧ buildHierarchy ch (Some (length acc)) (d + 1) a1 = (cn, a2)
        ∧ (acc ++ [o])%list `prefix_of` a1 ∧ a2 `prefix_of` acc'.
Proof.
  intros Hrun. rewrite buildHierarchy_unfold in Hrun.
  destruct (mapAccum _ _ _) as [kids acc1] eqn:Hkids.
  inversion Hrun; subst; clear Hrun. cbn.
  do 5 (split; [done|]).
  eapply (mapAccum_lookup _ prefix) in Hkids as (_ & Hlen & Hk).
  - split; [done|]. intros k cn Hcn.
    destruct (Hk _ _ Hcn) as (ch & a1 & a2 & ? & ? & ? & ?). by exists ch, a1, a2.
  - intros ch s b s' _ Hb. by eapply buildHierarchy_prefix.
Qed.

(** Every node of the tree is itself the result of a run, on the item at
    the same path. *)
Lemma buildHierarchy_subrun path : ∀ o parent d acc n acc' m,
  buildHierarchy o parent d acc = (n, acc') →
  nodeAt n path = Some m →
  ∃ o' parent' a1 a2,
    buildHierarchy o' parent' (d + Z.of_nat (length path)) a1 = (m, a2)
    ∧ NodeItem.itemAt o path = Some o'
    ∧ acc `prefix_of` a1 ∧ a2 `prefix_of` acc'.
Proof.
  induction path as [|k path IH]; intros o parent d acc n acc' m Hrun Hat.
  - inversion Hat; subst. exists o, parent, acc, acc'.
    cbn. rewrite Z.add_0_r. by repeat split.
  - cbn [nodeAt] in Hat. destruct (children n !! k) as [cn|] eqn:Hcn; [|done].
    destruct (buildHierarchy_root _ _ _ _ _ _ Hrun)
      as (_ & _ & _ & _ & _ & _ & Hkids).
    destruct (Hkids _ _ Hcn) as (ch & a1 & a2 & Hch & Hsub & Hpre & Hpost).
    destruct (IH _ _ _ _ _ _ _ Hsub Hat)
      as (o' & parent' & b1 & b2 & Hm & Hitem & Hb1 & Hb2).
    exists o', parent', b1, b2. repeat split.
    + rewrite <-Hm. f_equal. cbn [length]. lia.
    + cbn [NodeItem.itemAt]. by rewrite Hch.
    + etrans; [|done]. etrans; [|done]. by eexists.
    + by etrans.
Qed.

(** A node at [path] was pushed together with the item at [path]. *)
Lemma buildHierarchy_nodeAt o parent d acc n acc' path m :
  buildHierarchy o parent d acc = (n, acc') →
  nodeAt n path = Some m →
  ∃ o', NodeItem.itemAt o path = Some o'
        ∧ acc' !! dataIndex m = Some o'
        ∧ depth m = d + Z.of_nat (length path)
        ∧ name m = default EmptyString (NodeItem.name o')
        ∧ isExpand m = false.
Proof.
  intros Hrun Hat.
  destruct (buildHierarchy_subrun _ _ _ _ _ _ _ _ Hrun Hat)
    as (o' & parent' & a1 & a2 & Hm & Hitem & _ & Hpost).
  destruct (buildHierarchy_root _ _ _ _ _ _ Hm) as (Hn & Hd & Hi & _ & He & _).
  exists o'. repeat split; try done.
  eapply prefix_lookup_Some; [|done].
  rewrite (buildHierarchy_listData _ _ _ _ _ _ Hm), Hi, flatten_unfold.
  by rewrite lookup_app_r, Nat.sub_diag.
Qed.

Lemma buildHierarchy_itemAt path : ∀ o parent d acc n acc' o',
  buildHierarchy o parent d acc = (n, acc') →
  NodeItem.itemAt o path = Some o' →
  ∃ m, nodeAt n path = Some m.
Proof.
  induction path as [|k path IH]; intros o parent d acc n acc' o' Hrun Hat.
  - by exists n.
  - cbn [NodeItem.itemAt] in Hat.
    destruct (NodeItem.children o !! k) as [ch|] eqn:Hch; [|done].
    destruct (buildHierarchy_root _ _ _ _ _ _ Hrun)
      as (_ & _ & _ & _ & _ & Hlen & Hkids).
    destruct (lookup_lt_is_Some_2 (children n) k) as [cn Hcn].
    { rewrite Hlen. by eapply lookup_lt_Some. }
    destruct (Hkids _ _ Hcn) as (ch' & a1 & a2 & Hch' & Hsub & _).
    assert (ch' = ch) as -> by congruence.
    destruct (IH _ _ _ _ _ _ _ Hsub Hat) as [m Hm].
    exists m. cbn [nodeAt]. by rewrite Hcn.
Qed.

Lemma buildHierarchy_linked o parent d acc n acc' :
  buildHierarchy o parent d acc = (n, acc') → linked n.
Proof.
  intros Hrun m c Hm Hc.
  apply preorder_nodeAt in Hm as [path Hat].
  destruct (buildHierarchy_subrun _ _ _ _ _ _ _ _ Hrun Hat)
    as (o' & parent' & a1 & a2 & Hsub & _).
  destruct (buildHierarchy_root _ _ _ _ _ _ Hsub)
    as (_ & _ & Hi & _ & _ & _ & Hkids).
  apply list_elem_of_lookup in Hc as [k Hk].
  destruct (Hkids _ _ Hk) as (ch & b1 & b2 & _ & Hch & Hpre & _).
  destruct (buildHierarchy_root _ _ _ _ _ _ Hch) as (_ & _ & Hic & Hp & _).
  rewrite Hp, Hic, Hi. split; [done|].
  apply prefix_length in Hpre. rewrite length_app in Hpre. simpl in Hpre. lia.
Qed.

(** The nodes of a run take consecutive slots, in pre-order. *)
Lemma buildHierarchy_slots o : ∀ parent d acc n acc',
  buildHierarchy o parent d acc = (n, acc') →
  map dataIndex (preorder n) = seq (length acc) (length (NodeItem.flatten o)).
Proof.
  induction o as [o IH] using item_nested_ind. intros parent d acc n acc' Hrun.
  rewrite buildHierarchy_unfold in Hrun.
  destruct (mapAccum _ _ _) as [kids acc1] eqn:Hkids.
  inversion Hrun; subst; clear Hrun.
  rewrite preorder_unfold, flatten_unfold. cbn. f_equal.
  enough (∀ a ks a', mapAccum (λ ch a0, buildHierarchy ch (Some (length acc))
                                          (d + 1) a0) (NodeItem.children o) a
                     = (ks, a') →
                     map dataIndex (flat_map preorder ks)
                     = seq (length a)
                         (length (flat_map NodeItem.flatten (NodeItem.children o))))
    as Hall.
  { rewrite (Hall _ _ _ Hkids), length_app. cbn. f_equal. lia. }
  clear Hkids. induction IH as [|ch cs Hc _ IHcs]; intros a ks a' Hks.
  - by inversion Hks.
  - rewrite mapAccum_cons in Hks.
    destruct (buildHierarchy ch _ _ a) as [cn a1] eqn:Hcn.
    destruct (mapAccum _ cs a1) as [ks1 a2] eqn:Hks1.
    inversion Hks; subst. cbn [flat_map].
    rewrite map_app, length_app, seq_app.
    rewrite (Hc _ _ _ _ _ Hcn), (IHcs _ _ _ Hks1).
    by rewrite (buildHierarchy_listData _ _ _ _ _ _ Hcn), length_app.
Qed.

(** *** What a tree shaped by [createTree] offers *)

Lemma indexed_lookup root i m :
  indexed root → preorder root !! i = Some m → dataIndex m = i.
Proof.
  intros Hidx Hm.
  assert (map dataIndex (preorder root) !! i = Some (dataIndex m)) as Hi
    by (by rewrite list_lookup_fmap, Hm).
  rewrite Hidx in Hi. apply lookup_seq in Hi as [-> _]. done.
Qed.

Lemma indexed_node root m :
  indexed root → m ∈ preorder root → preorder root !! dataIndex m = Some m.
Proof.
  intros Hidx [i Hi]%list_elem_of_lookup.
  by rewrite (indexed_lookup _ _ _ Hidx Hi).
Qed.

Lemma linked_descends root top anc node :
  linked root → top ∈ preorder root → descends top anc node →
  (dataIndex top + length anc ≤ dataIndex node)%nat.
Proof.
  intros Hlink Htop. induction 1 as [|anc p c Hdesc IH Hc]; [simpl; lia|].
  assert (p ∈ preorder root) as Hp.
  { eapply preorder_trans; [done|]. by eapply descends_preorder. }
  destruct (Hlink _ _ Hp Hc) as [_ Hlt]. rewrite length_app. simpl. lia.
Qed.

(** Updating nodes without touching their links keeps the shape. *)
Lemma update_fields (g : TreeNode → TreeNode) n :
  (∀ m, dataIndex (g m) = dataIndex m ∧ parentNode (g m) = parentNode m
        ∧ depth (g m) = depth m ∧ name (g m) = name m) →
  dataIndex (update g n) = dataIndex n
  ∧ parentNode (update g n) = parentNode n
  ∧ depth (update g n) = depth n
  ∧ name (update g n) = name n
  ∧ isExpand (update g n) = isExpand (g n)
  ∧ children (update g n) = map (update g) (children n).
Proof.
  intros Hg. cbn beta. rewrite update_unfold.
  destruct (Hg n) as (? & ? & ? & ?). by repeat split.
Qed.

Lemma update_indexed (g : TreeNode → TreeNode) root :
  (∀ m, dataIndex (g m) = dataIndex m ∧ parentNode (g m) = parentNode m
        ∧ depth (g m) = depth m ∧ name (g m) = name m) →
  indexed root → indexed (update g root).
Proof.
  intros Hg Hidx. unfold indexed.
  rewrite update_preorder, length_map, <-Hidx, <-list_fmap_compose.
  apply list_fmap_ext. intros i m _. cbn. by apply update_fields.
Qed.

Lemma update_linked (g : TreeNode → TreeNode) root :
  (∀ m, dataIndex (g m) = dataIndex m ∧ parentNode (g m) = parentNode m
        ∧ depth (g m) = depth m ∧ name (g m) = name m) →
  linked root → linked (update g root).
Proof.
  intros Hg Hlink m' c' Hm' Hc'.
  rewrite update_preorder in Hm'.
  apply list_elem_of_fmap in Hm' as (m & -> & Hm).
  destruct (update_fields g m Hg) as (Him & _ & _ & _ & _ & Hch).
  rewrite Hch in Hc'. apply list_elem_of_fmap in Hc' as (c & -> & Hc).
  destruct (update_fields g c Hg) as (Hic & Hpc & _).
  rewrite Him, Hic, Hpc. by apply Hlink.
Qed.

(** *** The tree [getInitialData] returns *)

Import TreeSeries.

Implicit Types (this : Model) (option : TreeSeriesOption).

(** The leaves bundle handed to [createTree]. *)
Local Abbreviation leavesOf option :=
  (if truthy (leaves option) then leaves option else JObj []).

Lemma initExpand_fields tree etd m :
  dataIndex (initExpand tree etd m) = dataIndex m
  ∧ parentNode (initExpand tree etd m) = parentNode m
  ∧ depth (initExpand tree etd m) = depth m
  ∧ Tree.name (initExpand tree etd m) = Tree.name m.
Proof. done. Qed.

Lemma createTree_run dataRoot this leaves :
  ∃ root0,
    buildHierarchy dataRoot None 0 [] = (root0, NodeItem.flatten dataRoot)
    ∧ createTree dataRoot this leaves
      = mkTree root0 (NodeItem.flatten dataRoot) this
               (mkModel leaves (Some this)).
Proof.
  unfold createTree.
  destruct (buildHierarchy dataRoot None 0 []) as [root0 L] eqn:Hrun.
  pose proof (buildHierarchy_listData _ _ _ _ _ _ Hrun) as ->.
  by exists root0.
Qed.

Lemma getInitialData_run this option :
  ∃ root0,
    let tree0 := createTree (virtualRoot option) this (leavesOf option) in
    buildHierarchy (virtualRoot option) None 0 []
      = (root0, NodeItem.flatten (virtualRoot option))
    ∧ root tree0 = root0
    ∧ listData tree0 = NodeItem.flatten (virtualRoot option)
    ∧ listData (getInitialData this option) = listData tree0
    ∧ root (getInitialData this option)
      = update (initExpand tree0 (expandTreeDepth option (treeDepth tree0)))
               root0.
Proof.
  destruct (createTree_run (virtualRoot option) this (leavesOf option))
    as (root0 & Hrun & Htree).
  exists root0. cbn zeta. unfold getInitialData. cbn zeta.
  rewrite Htree. by repeat split.
Qed.

Lemma treeDepth_fold tree :
  treeDepth tree
  = foldl (λ td node, if depth node >? td then depth node else td)
          0 (preorder (root tree)).
Proof. unfold treeDepth. by rewrite eachNode_fold. Qed.

Lemma foldl_depth_max (l : list TreeNode) (init : Z) :
  let r := foldl (λ td node, if depth node >? td then depth node else td)
                 init l in
  init ≤ r
  ∧ (∀ n, n ∈ l → depth n ≤ r)
  ∧ (r = init ∨ ∃ n, n ∈ l ∧ depth n = r).
Proof.
  revert init. induction l as [|x l IH]; intros init; cbn.
  - split; [lia|]. split; [by intros n ?%elem_of_nil|by left].
  - set (i1 := if depth x >? init then depth x else init).
    destruct (IH i1) as (Hle & Hall & Hex).
    assert (init ≤ i1 ∧ depth x ≤ i1 ∧ (i1 = init ∨ i1 = depth x))
      as (Hi & Hx & Hor) by (subst i1; destruct (Z.gtb_spec (depth x) init); lia).
    split; [lia|]. split.
    + intros n [->|Hn]%elem_of_cons; [lia|by apply Hall].
    + destruct Hex as [Hr|(n & Hn & Hd)].
      * destruct Hor as [Ho|Ho]; [left; congruence|].
        right. exists x. split; [left|congruence].
      * right. exists n. split; [by right|done].
Qed.

Lemma treeDepth_upper tree n :
  n ∈ preorder (root tree) → depth n ≤ treeDepth tree.
Proof.
  intros Hn. rewrite treeDepth_fold.
  by apply (foldl_depth_max (preorder (root tree)) 0).
Qed.

(** The node at [path] of the returned tree: which item its row holds, and
    how the second traversal set its [isExpand]. *)
Lemma getInitialData_nodeAt this option path node :
  nodeAt (root (getInitialData this option)) path = Some node →
  ∃ item,
    NodeItem.itemAt (virtualRoot option) path = Some item
    ∧ getRawDataItem (getInitialData this option) (dataIndex node) = Some item
    ∧ depth node = Z.of_nat (length path)
    ∧ Tree.name node = default EmptyString (NodeItem.name item)
    ∧ depth node
      ≤ treeDepth (createTree (virtualRoot option) this (leavesOf option))
    ∧ isExpand node
      = match NodeItem.collapsed item with
        | Some collapsed => negb collapsed
        | None =>
            depth node
            <=? expandTreeDepth option
                  (treeDepth (createTree (virtualRoot option) this
                                         (leavesOf option)))
        end.
Proof.
  destruct (getInitialData_run this option)
    as (root0 & Hrun & Hroot & Hdata & Hdata' & Hroot').
  cbn zeta in *. unfold getRawDataItem. rewrite Hroot', Hdata', Hdata.
  set (tree0 := createTree (virtualRoot option) this (leavesOf option)) in *.
  set (g := initExpand tree0 (expandTreeDepth option (treeDepth tree0))).
  rewrite update_nodeAt. intros Hat.
  destruct (nodeAt root0 path) as [n0|] eqn:Hn0; [|done].
  inversion Hat; subst node; clear Hat.
  destruct (buildHierarchy_nodeAt _ _ _ _ _ _ _ _ Hrun Hn0)
    as (item & Hitem & Hrow & Hdepth & Hname & _).
  destruct (update_fields g n0 (initExpand_fields _ _))
    as (Hi & _ & Hd & Hnm & He & _).
  exists item. rewrite Hi, Hd, Hnm, He.
  repeat split; try done.
  - apply treeDepth_upper. rewrite Hroot. by eapply nodeAt_preorder.
  - subst g. unfold initExpand, getRawDataItem. cbn [isExpand setIsExpand].
    by rewrite Hdata, Hrow.
Qed.

Lemma getInitialData_itemAt this option path item :
  NodeItem.itemAt (virtualRoot option) path = Some item →
  ∃ node, nodeAt (root (getInitialData this option)) path = Some node.
Proof.
  destruct (getInitialData_run this option)
    as (root0 & Hrun & _ & _ & _ & Hroot').
  cbn zeta in *. rewrite Hroot'. intros Hitem.
  destruct (buildHierarchy_itemAt _ _ _ _ _ _ _ _ Hrun Hitem) as [n0 Hn0].
  rewrite update_nodeAt, Hn0. by eexists.
Qed.

Lemma getInitialData_shape this option :
  indexed (root (getInitialData this option))
  ∧ linked (root (getInitialData this option)).
Proof.
  destruct (getInitialData_run this option)
    as (root0 & Hrun & _ & _ & _ & Hroot').
  cbn zeta in *. rewrite Hroot'. split.
  - apply update_indexed; [apply initExpand_fields|].
    pose proof (buildHierarchy_slots _ _ _ _ _ _ Hrun) as Hslots.
    unfold indexed. rewrite Hslots. f_equal.
    by rewrite <-(length_map dataIndex), Hslots, length_seq.
  - apply update_linked; [apply initExpand_fields|].
    by eapply buildHierarchy_linked.
Qed.

(** * Properties of [getInitialData] *)

(** C4. The depth the first traversal computes bounds the depth of every
    node reachable from the root and is the depth of one of them: it is the
    maximum of [node.depth] over the tree. *)
Theorem treeDepth_is_max_depth dataRoot this leaves :
  let tree := createTree dataRoot this leaves in
  (∀ n, reachable (root tree) n → depth n ≤ treeDepth tree)
  ∧ (∃ n, reachable (root tree) n ∧ depth n = treeDepth tree).
Proof.
  intros tree. split.
  - intros n Hn%reachable_preorder. by apply treeDepth_upper.
  - rewrite treeDepth_fold.
    destruct (foldl_depth_max (preorder (root tree)) 0) as (_ & _ & [Hr|Hex]).
    + exists (root tree). split; [constructor|]. rewrite Hr.
      destruct (createTree_run dataRoot this leaves) as (root0 & Hrun & Htree).
      subst tree. rewrite Htree. cbn [root].
      by destruct (buildHierarchy_root _ _ _ _ _ _ Hrun) as (_ & Hd & _).
    + destruct Hex as (n & Hn & Hd). exists n.
      split; [by apply reachable_preorder|done].
Qed.

(** C1, as the code has it. A node whose row holds an item with an explicit
    [collapsed] gets [isExpand = !collapsed] at any depth, so an explicit
    [collapsed: false] always expands the node; a node whose item has no
    [collapsed] is expanded exactly when its depth is within the effective
    depth. (The item is the one at the node's own path in the option, and
    the node's depth is the length of that path.) *)
Theorem explicit_collapsed_sets_isExpand this option path node item :
  nodeAt (root (getInitialData this option)) path = Some node →
  getRawDataItem (getInitialData this option) (dataIndex node) = Some item →
  NodeItem.itemAt (virtualRoot option) path = Some item
  ∧ depth node = Z.of_nat (length path)
  ∧ (∀ collapsed, NodeItem.collapsed item = Some collapsed →
                  isExpand node = negb collapsed)
  ∧ (NodeItem.collapsed item = Some false → isExpand node = true)
  ∧ (NodeItem.collapsed item = None →
     isExpand node
     = (depth node
        <=? expandTreeDepth option
              (treeDepth (createTree (virtualRoot option) this
                                     (leavesOf option))))).
Proof.
  intros Hat Hrow.
  destruct (getInitialData_nodeAt _ _ _ _ Hat)
    as (item' & Hitem & Hrow' & Hd & _ & _ & He).
  assert (item' = item) as -> by congruence.
  split; [done|]. split; [done|].
  split; [|split].
  - intros collapsed Hc. by rewrite Hc in He.
  - intros Hc. by rewrite Hc in He.
  - intros Hc. by rewrite Hc in He.
Qed.

(** C1 fails where it equates an explicit [collapsed: false] with an absent
    [collapsed]: in the chain A, B, C with initial depth 2, node C (depth 3)
    is expanded when its item says [collapsed: false] and is not when the
    item has no [collapsed]. *)
Lemma collapsed_false_differs_from_absent :
  let explicit := getInitialData Sample.plainSeries (Sample.chain (Some false)) in
  let absent := getInitialData Sample.plainSeries (Sample.chain None) in
  (isExpand <$> nodeAt (root explicit) [0; 0; 0]%nat) = Some true
  ∧ (isExpand <$> nodeAt (root absent) [0; 0; 0]%nat) = Some false.
Proof. by vm_compute. Qed.

(** C2, as the code has it. A node whose row holds an item without
    [collapsed] is expanded when expand/collapse is off, or the initial
    depth is negative, or no initial depth is set: in each of these cases
    the effective depth is the depth of the tree. Otherwise, with
    expand/collapse on and an initial depth [d >= 0], it is expanded exactly
    when its depth is at most [d]. *)
Theorem absent_collapsed_expands_by_depth this option path node item :
  nodeAt (root (getInitialData this option)) path = Some node →
  getRawDataItem (getInitialData this option) (dataIndex node) = Some item →
  NodeItem.collapsed item = None →
  NodeItem.itemAt (virtualRoot option) path = Some item
  ∧ depth node = Z.of_nat (length path)
  ∧ (expandAndCollapse option ≠ Some true →
     (∀ td, expandTreeDepth option td = td) ∧ isExpand node = true)
  ∧ (∀ d, initialTreeDepth option = Some d → d < 0 →
          (∀ td, expandTreeDepth option td = td) ∧ isExpand node = true)
  ∧ (∀ d, expandAndCollapse option = Some true →
          initialTreeDepth option = Some d → 0 ≤ d →
          isExpand node = (depth node <=? d))
  ∧ (initialTreeDepth option = None →
     (∀ td, expandTreeDepth option td = td) ∧ isExpand node = true).
Proof.
  intros Hat Hrow Hc.
  destruct (getInitialData_nodeAt _ _ _ _ Hat)
    as (item' & Hitem & Hrow' & Hd & _ & Hmax & He).
  assert (item' = item) as -> by congruence.
  rewrite Hc in He. rewrite He. clear He.
  set (td0 := treeDepth _) in *.
  assert ((∀ td, expandTreeDepth option td = td) →
          (∀ td, expandTreeDepth option td = td)
          ∧ (depth node <=? expandTreeDepth option td0) = true) as Hfull.
  { intros Hetd. split; [done|]. rewrite Hetd. by apply Z.leb_le. }
  split; [done|]. split; [done|]. split; [|split; [|split]].
  - intros Hoff. apply Hfull. intros td. unfold expandTreeDepth.
    by destruct (expandAndCollapse option) as [[]|].
  - intros d Hd0 Hneg. apply Hfull. intros td. unfold expandTreeDepth.
    rewrite Hd0. destruct (expandAndCollapse option) as [[]|]; [|done..].
    by destruct (Z.geb_spec d 0); [lia|].
  - intros d Hon Hd0 Hpos. unfold expandTreeDepth. rewrite Hon, Hd0.
    by destruct (Z.geb_spec d 0); [|lia].
  - intros Hnone. apply Hfull. intros td. unfold expandTreeDepth.
    rewrite Hnone. by destruct (expandAndCollapse option) as [[]|].
Qed.

(** C2 fails when expand/collapse is on and no initial depth is set. The
    comparison [node.depth <= initialTreeDepth] is false against
    [undefined], but so is [initialTreeDepth >= 0], so the effective depth
    is the depth of the tree and every node of the chain A, B, C comes out
    expanded. Each entry below is a node's depth, its [isExpand], and what
    the comparison gives. *)
Lemma unset_initial_depth_expands_all :
  let option :=
    mkOption (Some "tree") (data (Sample.chain None)) JUndefined (Some true)
             None in
  let tree := getInitialData Sample.plainSeries option in
  let compared (depth : Z) :=
    match initialTreeDepth option with
    | Some d => depth <=? d
    | None => false
    end in
  expandAndCollapse option = Some true
  ∧ initialTreeDepth option = None
  ∧ Forall (λ item, NodeItem.collapsed item = None) (listData tree)
  ∧ map (λ n, (depth n, isExpand n, compared (depth n))) (_nodes tree)
    = [(0, true, false); (1, true, false); (2, true, false);
       (3, true, false)].
Proof.
  cbn zeta. split; [done|]. split; [done|]. split.
  - vm_compute. by repeat constructor.
  - by vm_compute.
Qed.

(** * Properties of [formatTooltip] *)

(** Joining names with dots is what prepending [parent.name + '.'] at each
    step builds. *)
Lemma concat_names (anc : list TreeNode) node :
  String.concat "." (map Tree.name (anc ++ [node]))
  = foldr (λ a s, Tree.name a +:+ "." +:+ s) (Tree.name node) anc.
Proof.
  induction anc as [|a anc IH]; [done|].
  cbn [app map foldr]. rewrite <-IH.
  by destruct anc.
Qed.

(** The loop climbs from [node] to [top] and prepends the names on the way. *)
Lemma walkUp_descends tree top anc node :
  indexed (root tree) → linked (root tree) → top ∈ preorder (root tree) →
  descends top anc node →
  ∀ (str : string) fuel, (length anc < fuel)%nat →
    walkUp fuel tree (Some top) (Some node) str
    = Returned (foldr (λ a s, Tree.name a +:+ "." +:+ s) str anc).
Proof.
  intros Hidx Hlink Htop.
  induction 1 as [|anc p c Hdesc IH Hc]; intros str fuel Hfuel.
  - destruct fuel as [|fuel]; [simpl in Hfuel; lia|].
    cbn. by rewrite Nat.eqb_refl.
  - destruct fuel as [|fuel]; [lia|].
    rewrite length_app in Hfuel. cbn [length] in Hfuel.
    assert (p ∈ preorder (root tree)) as Hp.
    { eapply preorder_trans; [done|]. by eapply descends_preorder. }
    destruct (Hlink _ _ Hp Hc) as [Hparent Hlt].
    pose proof (linked_descends _ _ _ _ Hlink Htop Hdesc) as Hge.
    cbn [walkUp sameNode].
    replace (dataIndex c =? dataIndex top)%nat with false
      by (symmetry; apply Nat.eqb_neq; lia).
    rewrite Hparent. unfold getNodeByDataIndex, _nodes.
    rewrite (indexed_node _ _ Hidx Hp).
    rewrite IH by lia. by rewrite foldr_app.
Qed.

(** C5, as the code has it. For a data index whose node lies in the subtree
    of the first real node, [formatTooltip] returns the escaped names from
    that first real node down to the node, joined with dots, followed by
    [" : " + value] exactly when the resolved value is a number that is not
    NaN. The value is printed as the language prints a number: in decimal
    digits when it is a safe integer, as [Infinity] or [-Infinity], and as
    [unsafe] gives it otherwise. *)
Theorem formatTooltip_name_path (unsafe : QArith_base.Q → string) this option
    realRoot anc node idx :
  let tree := getInitialData this option in
  children (root tree) !! 0%nat = Some realRoot →
  descends realRoot anc node →
  getNodeByDataIndex tree idx = Some node →
  formatTooltip unsafe tree idx
  = Returned (Format.encodeHTML
                (String.concat "." (map Tree.name (anc ++ [node]))
                 +:+ match getValue tree node with
                     | NodeItem.PNum z =>
                         " : " +:+ (if Z.abs z <? 2 ^ 53 then pretty z
                                    else unsafe (QArith_base.Qmake z 1))
                     | NodeItem.PReal q =>
                         " : " +:+ Format.numberToString unsafe q
                     | NodeItem.PInfinity negative =>
                         " : " +:+ (if negative then "-Infinity"
                                    else "Infinity")
                     | NodeItem.PNaN | NodeItem.PUndefined
                     | NodeItem.PNull => EmptyString
                     end)).
Proof.
  intros tree Hreal Hdesc Hnode.
  destruct (getInitialData_shape this option) as [Hidx Hlink].
  fold tree in Hidx, Hlink.
  assert (realRoot ∈ preorder (root tree)) as Htop.
  { eapply preorder_child; [by eapply list_elem_of_lookup_2|apply preorder_self]. }
  pose proof (linked_descends _ _ _ _ Hlink Htop Hdesc) as Hge.
  pose proof (indexed_lookup _ _ _ Hidx Hnode) as Hi.
  apply lookup_lt_Some in Hnode as Hlt.
  unfold formatTooltip. rewrite Hreal, Hnode.
  rewrite (walkUp_descends _ _ _ _ Hidx Hlink Htop Hdesc)
    by (unfold getNodeByDataIndex, _nodes in *; lia).
  rewrite concat_names. f_equal. f_equal. f_equal.
  unfold valueSuffix. by destruct (getValue tree node).
Qed.

(** C5 fails at the data index of the virtual root: the loop starts above
    the first real node, reads the name of a parent that does not exist,
    and the call ends in a TypeError instead of returning a string. The
    same happens for a node under a second top-level item. *)
Lemma formatTooltip_throws_at_virtual_root :
  let tree := getInitialData Sample.plainSeries (Sample.chain None) in
  let two :=
    getInitialData Sample.plainSeries
      (mkOption (Some "tree")
         [Sample.item "A" NodeItem.PUndefined None [];
          Sample.item "C" (NodeItem.PNum 1) None []]
         JUndefined (Some true) (Some 2)) in
  formatTooltip Sample.unsafeNumber tree 0 = TypeError
  ∧ formatTooltip Sample.unsafeNumber tree 2 = Returned "A.B : 5"
  ∧ formatTooltip Sample.unsafeNumber tree 3 = Returned "A.B.C"
  ∧ (Tree.name <$> getNodeByDataIndex two 2) = Some "C"
  ∧ formatTooltip Sample.unsafeNumber two 2 = TypeError.
Proof. by vm_compute. Qed.

(** * Properties of the wrapped [getItemModel] *)

(** C6. For a node without children, or one that is not expanded, the
    wrapped [getItemModel] returns the row's item model with the leaves
    model as its parent, so a property the item leaves nullish resolves from
    the leaves model (and from there on through the leaves model's own
    parent); for any other node it returns the item model as it was. *)
Theorem getItemModel_through_leaves tree idx node :
  getNodeByDataIndex tree idx = Some node →
  let model := Tree.getItemModel tree idx in
  (children node = [] ∨ isExpand node = false →
   ∃ wrapped,
     TreeSeries.getItemModel tree idx = Returned wrapped
     ∧ m_option wrapped = m_option model
     ∧ parentModel wrapped = Some (leavesModel tree)
     ∧ (∀ pathArr,
          get wrapped pathArr
          = (let own := descend (m_option model) pathArr in
             if isNullish own then get (leavesModel tree) pathArr else own))
     ∧ (∀ pathArr,
          isNullish (descend (m_option model) pathArr) = true →
          isNullish (descend (m_option (leavesModel tree)) pathArr) = false →
          get wrapped pathArr
          = descend (m_option (leavesModel tree)) pathArr))
  ∧ (children node ≠ [] → isExpand node = true →
     TreeSeries.getItemModel tree idx = Returned model).
Proof.
  intros Hnode model.
  unfold TreeSeries.getItemModel, beforeLink, wrapMethod. rewrite Hnode.
  fold model. clearbody model. split.
  - intros Hleaf.
    assert ((length (children node) =? 0)%nat || negb (isExpand node) = true)
      as -> by (destruct Hleaf as [->| ->]; [done|by rewrite orb_true_r]).
    exists (setParentModel model (getLeavesModel tree node)).
    split; [done|]. split; [done|]. split; [done|]. split.
    + intros pathArr. cbn. by destruct (isNullish _).
    + intros pathArr Hown Hleaves. unfold getLeavesModel.
      destruct (leavesModel tree) as [lo lp].
      cbn [get setParentModel m_option parentModel] in *.
      by rewrite Hown, Hleaves.
  - intros Hkids ->. by destruct (children node).
Qed.

(** The leaves model of the returned tree holds [option.leaves || {}] and
    falls back to the series model. *)
Lemma getInitialData_leavesModel this option :
  leavesModel (getInitialData this option)
  = mkModel (leavesOf option) (Some this)
  ∧ hostModel (getInitialData this option) = this.
Proof.
  unfold getInitialData. cbn zeta.
  destruct (createTree_run (virtualRoot option) this (leavesOf option))
    as (root0 & _ & ->).
  done.
Qed.

(** * The theorems at work on the sample chain *)

Lemma explicit_collapsed_sets_isExpand_witness :
  let option := Sample.chain (Some false) in
  let tree := getInitialData Sample.plainSeries option in
  let item := Sample.item "C" NodeItem.PNaN (Some false) [] in
  nodeAt (root tree) [0; 0; 0]%nat = Some (Sample.nodeC true)
  ∧ getRawDataItem tree 3 = Some item
  ∧ NodeItem.itemAt (virtualRoot option) [0; 0; 0]%nat = Some item
  ∧ depth (Sample.nodeC true) = 3
  ∧ isExpand (Sample.nodeC true) = negb false.
Proof.
  intros option tree item.
  assert (nodeAt (root tree) [0; 0; 0]%nat = Some (Sample.nodeC true)) as Hat
    by (vm_compute; reflexivity).
  assert (getRawDataItem tree (dataIndex (Sample.nodeC true)) = Some item)
    as Hrow by (vm_compute; reflexivity).
  split; [exact Hat|]. split; [exact Hrow|].
  destruct (explicit_collapsed_sets_isExpand Sample.plainSeries option
              [0; 0; 0]%nat (Sample.nodeC true) item Hat Hrow)
    as (Hitem & Hdepth & Hexpand & _).
  split; [exact Hitem|]. split; [exact Hdepth|exact (Hexpand false eq_refl)].
Defined.

Lemma absent_collapsed_expands_by_depth_witness :
  let option := Sample.chain None in
  let tree := getInitialData Sample.plainSeries option in
  let item := Sample.item "C" NodeItem.PNaN None [] in
  nodeAt (root tree) [0; 0; 0]%nat = Some (Sample.nodeC false)
  ∧ getRawDataItem tree 3 = Some item
  ∧ isExpand (Sample.nodeC false) = (depth (Sample.nodeC false) <=? 2).
Proof.
  intros option tree item.
  assert (nodeAt (root tree) [0; 0; 0]%nat = Some (Sample.nodeC false)) as Hat
    by (vm_compute; reflexivity).
  assert (getRawDataItem tree (dataIndex (Sample.nodeC false)) = Some item)
    as Hrow by (vm_compute; reflexivity).
  split; [exact Hat|]. split; [exact Hrow|].
  destruct (absent_collapsed_expands_by_depth Sample.plainSeries option
              [0; 0; 0]%nat (Sample.nodeC false) item Hat Hrow eq_refl)
    as (_ & _ & _ & _ & Hdepth & _).
  apply (Hdepth 2); [reflexivity|reflexivity|lia].
Defined.

Lemma formatTooltip_name_path_witness :
  let tree := getInitialData Sample.plainSeries (Sample.chain None) in
  children (root tree) !! 0%nat = Some (Sample.nodeA false)
  ∧ descends (Sample.nodeA false) [Sample.nodeA false] (Sample.nodeB false)
  ∧ getNodeByDataIndex tree 2 = Some (Sample.nodeB false)
  ∧ formatTooltip Sample.unsafeNumber tree 2 = Returned "A.B : 5".
Proof.
  intros tree.
  assert (children (root tree) !! 0%nat = Some (Sample.nodeA false)) as Hreal
    by (vm_compute; reflexivity).
  assert (descends (Sample.nodeA false) [Sample.nodeA false] (Sample.nodeB false))
    as Hdesc.
  { apply (desc_child (Sample.nodeA false) [] (Sample.nodeA false)
             (Sample.nodeB false)); [apply desc_here|].
    apply list_elem_of_here. }
  assert (getNodeByDataIndex tree 2 = Some (Sample.nodeB false)) as Hnode
    by (vm_compute; reflexivity).
  split; [exact Hreal|]. split; [exact Hdesc|]. split; [exact Hnode|].
  exact (formatTooltip_name_path Sample.unsafeNumber Sample.plainSeries
           (Sample.chain None)
           (Sample.nodeA false) [Sample.nodeA false] (Sample.nodeB false) 2%nat
           Hreal Hdesc Hnode).
Defined.

Lemma getItemModel_through_leaves_witness :
  let tree := getInitialData Sample.plainSeries (Sample.chain None) in
  getNodeByDataIndex tree 3 = Some (Sample.nodeC false)
  ∧ ∃ wrapped,
      TreeSeries.getItemModel tree 3 = Returned wrapped
      ∧ parentModel wrapped = Some (leavesModel tree).
Proof.
  intros tree.
  assert (getNodeByDataIndex tree 3 = Some (Sample.nodeC false)) as Hnode
    by (vm_compute; reflexivity).
  split; [exact Hnode|].
  destruct (getItemModel_through_leaves tree 3%nat (Sample.nodeC false) Hnode)
    as [Hleaf _].
  destruct (Hleaf (or_introl eq_refl)) as (wrapped & Hret & _ & Hparent & _).
  exists wrapped. split; [exact Hret|exact Hparent].
Defined.

End TreeFacts.

(** * More on the lines visual stage handler *)

Section LinesVisualMore.

Import LinesVisual RowWrites.

Implicit Types (data : List) (idx : nat) (key : string) (val : JsVal)
  (w : gmap string JsVal).

Lemma setItemVisual_putRow data idx key val :
  setItemVisual data idx key val = putRow {[key := val]} data idx.
Proof.
  unfold setItemVisual, putRow.
  by rewrite (insert_union_singleton_l (default ∅ (_itemVisuals data !! idx))).
Qed.

Lemma putRow_putRow w w' data idx :
  putRow w (putRow w' data idx) idx = putRow (w ∪ w') data idx.
Proof.
  unfold putRow; cbn. rewrite lookup_insert_eq; cbn.
  by rewrite insert_insert_eq, (assoc_L (∪)).
Qed.

Lemma putRow_comm w w' data i j :
  i ≠ j → putRow w (putRow w' data j) i = putRow w' (putRow w data i) j.
Proof.
  intros Hne. unfold putRow; cbn.
  rewrite !lookup_insert_ne by done. f_equal. by apply insert_insert_ne.
Qed.

Lemma getItemModel_putRow w data i idx :
  getItemModel (putRow w data i) idx = getItemModel data idx.
Proof. reflexivity. Qed.

(** The pass, as one write of [itemWrites] to the row. *)
Lemma dataEach_putRow data idx :
  dataEach data idx = putRow (itemWrites (getItemModel data idx)) data idx.
Proof.
  unfold dataEach, itemWrites, guarded.
  set (st := normalize _). set (sz := normalize _).
  destruct (truthy (index st 0)), (truthy (index st 1)),
    (truthy (index sz 0)), (truthy (index sz 1));
    rewrite !setItemVisual_putRow, ?putRow_putRow;
    by rewrite ?(left_id_L ∅ (∪)), ?(right_id_L ∅ (∪)), ?(assoc_L (∪)).
Qed.

Lemma itemWrites_other (itemModel : Model) key :
  key ∉ ["fromSymbol"; "toSymbol"; "fromSymbolSize"; "toSymbolSize"; "opacity"] →
  itemWrites itemModel !! key = None.
Proof.
  intros Hkey.
  assert ("fromSymbol" ≠ key ∧ "toSymbol" ≠ key ∧ "fromSymbolSize" ≠ key
          ∧ "toSymbolSize" ≠ key ∧ "opacity" ≠ key) as (? & ? & ? & ? & ?)
    by (repeat split; intros <-; apply Hkey; set_solver).
  unfold itemWrites, guarded.
  repeat match goal with
         | |- context [if truthy ?v then _ else _] => destruct (truthy v)
         end;
    by rewrite ?lookup_union, ?lookup_empty, ?lookup_singleton_ne by done.
Qed.

(** X1. An array given as [symbol] or [symbolSize] is not padded or cut:
    the endpoints are its first two slots, [undefined] where the array is
    too short, and further elements are ignored. *)
Theorem reset_array_endpoints (elems : list JsVal) rest parent data :
  let asSymbol := mkModel (JObj (("symbol", JArr elems) :: rest)) parent in
  let asSize :=
    mkModel (JObj (("symbolSize", JArr elems) :: rest)) parent in
  getVisual (reset asSymbol data).1 "fromSymbol" = default JUndefined (elems !! 0%nat)
  ∧ getVisual (reset asSymbol data).1 "toSymbol" = default JUndefined (elems !! 1%nat)
  ∧ getVisual (reset asSize data).1 "fromSymbolSize"
    = default JUndefined (elems !! 0%nat)
  ∧ getVisual (reset asSize data).1 "toSymbolSize"
    = default JUndefined (elems !! 1%nat).
Proof.
  intros asSymbol asSize. unfold getVisual, reset. cbn [fst].
  rewrite !visual_setVisual.
  repeat match goal with
         | |- context [decide ?P] => destruct (decide P); [try discriminate|]
         end; try done.
Qed.

Lemma List_eq (d1 d2 : List) :
  rawData d1 = rawData d2 → hostModel d1 = hostModel d2 →
  hasItemOption d1 = hasItemOption d2 → _visual d1 = _visual d2 →
  _itemVisuals d1 = _itemVisuals d2 → d1 = d2.
Proof. destruct d1, d2; cbn; by intros -> -> -> -> ->. Qed.

Lemma setVisual_visual data key val :
  _visual (setVisual data key val) = <[key := val]> (_visual data).
Proof. done. Qed.

Lemma setVisual_hasItemOption data key val :
  hasItemOption (setVisual data key val) = hasItemOption data.
Proof. done. Qed.

(** X2. Running [reset] again on the table it returned changes nothing. *)
Theorem reset_idempotent (seriesModel : Model) data :
  reset seriesModel (reset seriesModel data).1 = reset seriesModel data.
Proof.
  unfold reset. cbn [fst].
  set (a := js_and _ _). set (b := js_and _ _). set (c := js_and _ _).
  set (d := js_and _ _). set (o := get _ _).
  apply (f_equal2 pair).
  - apply List_eq; try done.
    rewrite !setVisual_visual.
    apply map_eq. intros key.
    destruct (decide (key = "opacity")) as [->|];
      [|destruct (decide (key = "toSymbolSize")) as [->|];
        [|destruct (decide (key = "fromSymbolSize")) as [->|];
          [|destruct (decide (key = "toSymbol")) as [->|];
            [|destruct (decide (key = "fromSymbol")) as [->|]]]]];
      repeat first [rewrite lookup_insert_eq | rewrite lookup_insert_ne by done];
      done.
  - by rewrite !setVisual_hasItemOption.
Qed.

(** X3. [reset] writes the five series visuals and nothing else: raw data,
    host model, the item-option flag, every per-row visual and every other
    series visual stay as they were. *)
Theorem reset_frame (seriesModel : Model) data :
  let data' := (reset seriesModel data).1 in
  rawData data' = rawData data
  ∧ hostModel data' = hostModel data
  ∧ hasItemOption data' = hasItemOption data
  ∧ _itemVisuals data' = _itemVisuals data
  ∧ (∀ idx key, getItemModel data' idx = getItemModel data idx
                ∧ itemVisualSlot data' idx key = itemVisualSlot data idx key)
  ∧ (∀ key,
       key ∉ ["fromSymbol"; "toSymbol"; "fromSymbolSize"; "toSymbolSize";
              "opacity"] →
       _visual data' !! key = _visual data !! key).
Proof.
  cbn zeta. unfold reset. cbn [fst]. repeat split.
  intros key Hkey. rewrite !visual_setVisual.
  repeat case_decide; try done; subst; exfalso; apply Hkey; set_solver.
Qed.

(** X4. The per-row pass for row [idx] leaves raw data, host model, flag
    and the series visuals alone, does not touch any other row, and in its
    own row touches no attribute besides the five. *)
Theorem dataEach_frame data idx :
  rawData (dataEach data idx) = rawData data
  ∧ hostModel (dataEach data idx) = hostModel data
  ∧ hasItemOption (dataEach data idx) = hasItemOption data
  ∧ _visual (dataEach data idx) = _visual data
  ∧ (∀ idx', idx' ≠ idx →
       _itemVisuals (dataEach data idx) !! idx' = _itemVisuals data !! idx')
  ∧ (∀ key,
       key ∉ ["fromSymbol"; "toSymbol"; "fromSymbolSize"; "toSymbolSize";
              "opacity"] →
       itemVisualSlot (dataEach data idx) idx key
       = itemVisualSlot data idx key).
Proof.
  rewrite dataEach_putRow. unfold putRow, itemVisualSlot; cbn.
  do 4 (split; [done|]). split.
  - intros idx' Hne. by rewrite lookup_insert_ne.
  - intros key Hkey. rewrite lookup_insert_eq; cbn.
    rewrite lookup_union, (itemWrites_other _ _ Hkey), (left_id_L None _).
    by destruct (_itemVisuals data !! idx).
Qed.

(** X5. Processing a row twice is the same as processing it once. *)
Theorem dataEach_idempotent data idx :
  dataEach (dataEach data idx) idx = dataEach data idx.
Proof.
  rewrite (dataEach_putRow data idx), dataEach_putRow, getItemModel_putRow.
  by rewrite putRow_putRow, (idemp_L (∪)).
Qed.

(** X6. The passes for two different rows can run in either order. *)
Theorem dataEach_rows_commute data i j :
  i ≠ j →
  dataEach (dataEach data i) j = dataEach (dataEach data j) i.
Proof.
  intros Hne.
  rewrite (dataEach_putRow data i), (dataEach_putRow data j).
  rewrite !dataEach_putRow, !getItemModel_putRow.
  by apply putRow_comm.
Qed.

Lemma getVisual_reset (seriesModel : Model) data :
  let symbolType := normalize (get seriesModel ["symbol"]) in
  let symbolSize := normalize (get seriesModel ["symbolSize"]) in
  let data' := (reset seriesModel data).1 in
  getVisual data' "fromSymbol" = index symbolType 0
  ∧ getVisual data' "toSymbol" = index symbolType 1
  ∧ getVisual data' "fromSymbolSize" = index symbolSize 0
  ∧ getVisual data' "toSymbolSize" = index symbolSize 1
  ∧ getVisual data' "opacity" = get seriesModel opacityQuery.
Proof.
  intros symbolType symbolSize data'. subst data'.
  unfold getVisual, reset. fold symbolType. fold symbolSize. cbn [fst].
  assert (∀ x, js_and symbolType x = x) as Hst
    by (intros x; subst symbolType; unfold normalize, js_and;
        by destruct (get seriesModel ["symbol"])).
  assert (∀ x, js_and symbolSize x = x) as Hsz
    by (intros x; subst symbolSize; unfold normalize, js_and;
        by destruct (get seriesModel ["symbolSize"])).
  rewrite !Hst, !Hsz, !visual_setVisual.
  repeat match goal with
         | |- context [decide ?P] => destruct (decide P); [try discriminate|]
         end; done.
Qed.

(** X7. What a row reads after [reset] and its own pass, when the table
    belongs to the series and the row had no visuals yet: each endpoint
    attribute is the row's override if that is truthy and the series value
    otherwise, and the opacity is what the item model resolves, the row's
    own [lineStyle.opacity] unless nullish and the series one otherwise. *)
Theorem resolved_visuals_after_pass (seriesModel : Model) data idx :
  hostModel data = seriesModel →
  _itemVisuals data !! idx = None →
  let data' := dataEach (reset seriesModel data).1 idx in
  let itemModel := getItemModel data idx in
  let itemType := normalize (getShallow itemModel "symbol" true) in
  let itemSize := normalize (getShallow itemModel "symbolSize" true) in
  let seriesType := normalize (get seriesModel ["symbol"]) in
  let seriesSize := normalize (get seriesModel ["symbolSize"]) in
  let own := descend (getRawDataItem data idx) opacityQuery in
  getItemVisual data' idx "fromSymbol"
  = (if truthy (index itemType 0) then index itemType 0 else index seriesType 0)
  ∧ getItemVisual data' idx "toSymbol"
    = (if truthy (index itemType 1) then index itemType 1
       else index seriesType 1)
  ∧ getItemVisual data' idx "fromSymbolSize"
    = (if truthy (index itemSize 0) then index itemSize 0
       else index seriesSize 0)
  ∧ getItemVisual data' idx "toSymbolSize"
    = (if truthy (index itemSize 1) then index itemSize 1
       else index seriesSize 1)
  ∧ getItemVisual data' idx "opacity"
    = (if isNullish own then get seriesModel opacityQuery else own).
Proof.
  intros Hhost Hfresh data' itemModel itemType itemSize seriesType seriesSize own.
  set (d1 := (reset seriesModel data).1) in *.
  destruct (slot_dataEach d1 idx) as (H1 & H2 & H3 & H4 & H5).
  destruct (getVisual_reset seriesModel data) as (V1 & V2 & V3 & V4 & V5).
  fold d1 in V1, V2, V3, V4, V5.
  assert (∀ key, getItemVisual d1 idx key = getVisual d1 key) as Hseries.
  { intros key. unfold getItemVisual, itemVisualSlot.
    by replace (_itemVisuals d1) with (_itemVisuals data); [rewrite Hfresh|]. }
  change (getItemModel d1 idx) with itemModel in *.
  fold itemType in H1, H2. fold itemSize in H3, H4.
  subst data'.
  rewrite (getItemVisual_dataEach _ _ _ _ H1), (getItemVisual_dataEach _ _ _ _ H2),
    (getItemVisual_dataEach _ _ _ _ H3), (getItemVisual_dataEach _ _ _ _ H4).
  rewrite !Hseries, V1, V2, V3, V4.
  do 4 (split; [done|]).
  unfold getItemVisual. rewrite H5, getVisual_dataEach, V5.
  subst itemModel. unfold getItemModel. cbn [get m_option parentModel].
  fold own. rewrite Hhost.
  destruct (isNullish own) eqn:Hown; [|by rewrite Hown].
  by destruct (isNullish (get seriesModel opacityQuery)).
Qed.

Lemma dataEach_rows_commute_witness :
  let series := mkModel (JObj [("symbol", JStr "circle")]) None in
  let data :=
    mkList [JObj [("symbol", JStr "arrow")]; JObj [("symbolSize", JNum 4)]]
           series true ∅ ∅ in
  (0 ≠ 1)%nat
  ∧ dataEach (dataEach data 0) 1 = dataEach (dataEach data 1) 0.
Proof.
  intros series data.
  assert ((0 ≠ 1)%nat) as Hne by discriminate.
  split; [exact Hne|exact (dataEach_rows_commute data 0%nat 1%nat Hne)].
Defined.

Lemma resolved_visuals_after_pass_witness :
  let series :=
    mkModel (JObj [("symbol", JStr "circle"); ("symbolSize", JNum 10)]) None in
  let data := mkList [JObj [("symbolSize", JNum 0)]] series true ∅ ∅ in
  hostModel data = series
  ∧ _itemVisuals data !! 0%nat = None
  ∧ getItemVisual (dataEach (reset series data).1 0) 0 "fromSymbolSize"
    = JNum 10.
Proof.
  intros series data.
  assert (hostModel data = series) as Hhost by reflexivity.
  assert (_itemVisuals data !! 0%nat = None) as Hfresh by reflexivity.
  split; [exact Hhost|]. split; [exact Hfresh|].
  destruct (resolved_visuals_after_pass series data 0%nat Hhost Hfresh)
    as (_ & _ & Hsize & _).
  exact Hsize.
Defined.

End LinesVisualMore.

(** * More on [getOrient] and on the setters *)

Section SeriesModelMore.

Import TreeSeries TreeSeriesModel.

Implicit Types (this : Model) (key : string) (val zoom center : JsVal)
  (props : list (string * JsVal)).

(** X8. [getOrient] never hands out one of the two legacy names. *)
Theorem getOrient_never_legacy this :
  getOrient this ≠ JStr "horizontal" ∧ getOrient this ≠ JStr "vertical".
Proof.
  unfold getOrient.
  destruct (get this ["orient"]) as [| | | | |s| |]; cbn [isStr]; try done.
  destruct (String.eqb_spec s "horizontal") as [->|Hh]; [done|].
  destruct (String.eqb_spec s "vertical") as [->|Hv]; [done|].
  split; congruence.
Qed.

Lemma assoc_assign_eq key val props : assoc key (assign key val props) = val.
Proof.
  induction props as [|[k v] props IH]; cbn.
  - by rewrite String.eqb_refl.
  - destruct (String.eqb_spec key k) as [->|Hne]; cbn.
    + by rewrite String.eqb_refl.
    + by destruct (String.eqb_spec key k).
Qed.

Lemma assoc_assign_ne key key' val props :
  key' ≠ key → assoc key' (assign key val props) = assoc key' props.
Proof.
  intros Hne. induction props as [|[k v] props IH]; cbn.
  - by destruct (String.eqb_spec key' key).
  - destruct (String.eqb_spec key k) as [->|Hk]; cbn.
    + by destruct (String.eqb_spec key' k).
    + by rewrite IH.
Qed.

Lemma assignOption_read this props key val :
  m_option this = JObj props →
  ∃ this',
    assignOption this key val = Returned this'
    ∧ parentModel this' = parentModel this
    ∧ getShallow this' key true = val
    ∧ (∀ key' ignoreParent, key' ≠ key →
         getShallow this' key' ignoreParent = getShallow this key' ignoreParent)
    ∧ (∀ key' rest, key' ≠ key → key' ≠ EmptyString →
         get this' (key' :: rest) = get this (key' :: rest)).
Proof.
  intros Hobj. unfold assignOption. rewrite Hobj. eexists. split; [done|].
  split; [done|]. split; [|split].
  - cbn. rewrite andb_false_r. apply assoc_assign_eq.
  - intros key' ignoreParent Hne. destruct this as [o p]. cbn in *. subst o.
    cbn. by rewrite assoc_assign_ne.
  - intros key' rest Hne Hnonempty. destruct this as [o p]. cbn in *. subst o.
    cbn. destruct (String.eqb_spec key' EmptyString) as [->|_]; [done|].
    by rewrite assoc_assign_ne.
Qed.

(** X9. On a series whose option is an object, [setZoom] and [setCenter]
    succeed and the value can be read back from the option itself; a lookup
    through [get] yields it too unless the value is nullish, in which case
    the lookup falls through to the parent model as for a missing key. *)
Theorem setters_read_back this props val :
  m_option this = JObj props →
  (∃ this',
     setZoom this val = Returned this'
     ∧ getShallow this' "zoom" true = val
     ∧ get this' ["zoom"]
       = if isNullish val
         then match parentModel this with
              | Some p => get p ["zoom"]
              | None => val
              end
         else val)
  ∧ (∃ this',
       setCenter this val = Returned this'
       ∧ getShallow this' "center" true = val
       ∧ get this' ["center"]
         = if isNullish val
           then match parentModel this with
                | Some p => get p ["center"]
                | None => val
                end
           else val).
Proof.
  intros Hobj. unfold setZoom, setCenter, assignOption. rewrite Hobj.
  split; eexists; (split; [done|]); cbn; rewrite !assoc_assign_eq;
    by destruct val, (parentModel this).
Qed.

(** X10. A setter changes one key only: after [setZoom] every other key of
    the option reads as before, directly and through [get], the parent
    model is the same, and the same holds for [setCenter]; in particular
    neither setter disturbs what the other one wrote. *)
Theorem setters_touch_one_key this props val :
  m_option this = JObj props →
  (∃ this',
     setZoom this val = Returned this'
     ∧ parentModel this' = parentModel this
     ∧ (∀ key ignoreParent, key ≠ "zoom" →
          getShallow this' key ignoreParent = getShallow this key ignoreParent)
     ∧ (∀ key rest, key ≠ "zoom" → key ≠ EmptyString →
          get this' (key :: rest) = get this (key :: rest)))
  ∧ (∃ this',
       setCenter this val = Returned this'
       ∧ parentModel this' = parentModel this
       ∧ (∀ key ignoreParent, key ≠ "center" →
            getShallow this' key ignoreParent
            = getShallow this key ignoreParent)
       ∧ (∀ key rest, key ≠ "center" → key ≠ EmptyString →
            get this' (key :: rest) = get this (key :: rest))).
Proof.
  intros Hobj. split.
  - destruct (assignOption_read this props "zoom" val Hobj)
      as (this' & Hset & Hp & _ & Hshallow & Hget).
    by exists this'.
  - destruct (assignOption_read this props "center" val Hobj)
      as (this' & Hset & Hp & _ & Hshallow & Hget).
    by exists this'.
Qed.

Lemma setters_read_back_witness :
  let this := mkModel (JObj [("zoom", JNum 1); ("center", JNull)]) None in
  m_option this = JObj [("zoom", JNum 1); ("center", JNull)]
  ∧ ∃ this', setZoom this (JNum 3) = Returned this'
             ∧ getShallow this' "zoom" true = JNum 3.
Proof.
  intros this.
  assert (m_option this = JObj [("zoom", JNum 1); ("center", JNull)]) as Hobj
    by reflexivity.
  split; [exact Hobj|].
  destruct (setters_read_back this _ (JNum 3) Hobj)
    as [(this' & Hset & Hread & _) _].
  exists this'. split; [exact Hset|exact Hread].
Defined.

Lemma setters_touch_one_key_witness :
  let this := mkModel (JObj [("zoom", JNum 1); ("center", JNull)]) None in
  m_option this = JObj [("zoom", JNum 1); ("center", JNull)]
  ∧ ∃ this', setCenter this (JArr [JNum 5; JNum 6]) = Returned this'
             ∧ getShallow this' "zoom" true = JNum 1.
Proof.
  intros this.
  assert (m_option this = JObj [("zoom", JNum 1); ("center", JNull)]) as Hobj
    by reflexivity.
  split; [exact Hobj|].
  destruct (setters_touch_one_key this _ (JArr [JNum 5; JNum 6]) Hobj)
    as [_ (this' & Hset & _ & Hshallow & _)].
  exists this'. split; [exact Hset|].
  rewrite (Hshallow "zoom" true); [reflexivity|discriminate].
Defined.

End SeriesModelMore.

(** * More on the tree [getInitialData] returns *)

Section TreeSeriesMore.

Import Tree TreeSeries.

Implicit Types (this : Model) (option : TreeSeriesOption)
  (o item : TreeSeriesNodeItemOption) (n m c node parent : TreeNode)
  (path : list nat) (idx : nat).

Local Abbreviation update g :=
  (λ n, (eachNode (λ node (_ : unit), (g node, tt)) n tt).1).

Local Abbreviation leavesOf option :=
  (if truthy (leaves option) then leaves option else JObj []).

Lemma nodeAt_snoc n path k :
  nodeAt n (path ++ [k]) = nodeAt n path ≫= λ p, children p !! k.
Proof.
  revert n. induction path as [|j path IH]; intros n; cbn.
  - by destruct (children n !! k).
  - destruct (children n !! j) as [c|]; [apply IH|done].
Qed.

Lemma itemAt_snoc o path k :
  NodeItem.itemAt o (path ++ [k])
  = NodeItem.itemAt o path ≫= λ p, NodeItem.children p !! k.
Proof.
  revert o. induction path as [|j path IH]; intros o; cbn.
  - by destruct (NodeItem.children o !! k).
  - destruct (NodeItem.children o !! j) as [ch|]; [apply IH|done].
Qed.

(** A node of the tree is the root or the child of a node of the tree. *)
Lemma preorder_root_or_child n m :
  m ∈ preorder n →
  m = n ∨ ∃ p, p ∈ preorder n ∧ m ∈ children p.
Proof.
  intros [path Hat]%preorder_nodeAt.
  destruct path as [|k path _] using rev_ind.
  - left. cbn in Hat. congruence.
  - right. rewrite nodeAt_snoc in Hat.
    destruct (nodeAt n path) as [p|] eqn:Hp; [|done]. cbn in Hat.
    exists p. split; [by eapply nodeAt_preorder|by eapply list_elem_of_lookup_2].
Qed.

(** The root of the returned tree. *)
Lemma getInitialData_root this option :
  let r := root (getInitialData this option) in
  Tree.name r = default EmptyString (name option)
  ∧ depth r = 0 ∧ dataIndex r = 0%nat ∧ parentNode r = None
  ∧ isExpand r = true
  ∧ length (children r) = length (data option).
Proof.
  intros r.
  destruct (getInitialData_nodeAt this option [] r eq_refl)
    as (item & Hitem & _ & Hd & Hname & Hmax & He).
  cbn in Hitem. inversion Hitem; subst item; clear Hitem.
  cbn [NodeItem.collapsed NodeItem.name virtualRoot length] in He, Hname, Hd.
  destruct (getInitialData_run this option)
    as (root0 & Hrun & _ & _ & _ & Hroot').
  cbn zeta in Hroot'. fold r in Hroot'.
  destruct (buildHierarchy_root _ _ _ _ _ _ Hrun)
    as (_ & _ & Hi & Hp & _ & Hlen & _).
  destruct (update_fields
              (initExpand (createTree (virtualRoot option) this (leavesOf option))
                 (expandTreeDepth option
                    (treeDepth (createTree (virtualRoot option) this
                                           (leavesOf option)))))
              root0 (initExpand_fields _ _))
    as (Hi' & Hp' & _ & _ & _ & Hch).
  cbn beta in Hi', Hp', Hch. rewrite <-Hroot' in Hi', Hp', Hch.
  split; [done|]. split; [done|]. split; [by rewrite Hi', Hi|].
  split; [by rewrite Hp', Hp|]. split.
  - rewrite He, Hd. apply Z.leb_le.
    rewrite Hd in Hmax. unfold expandTreeDepth.
    destruct (expandAndCollapse option) as [[]|]; try done.
    destruct (initialTreeDepth option) as [d|]; [|done].
    by destruct (Z.geb_spec d 0); [lia|].
  - by rewrite Hch, length_map, Hlen.
Qed.

Lemma getInitialData_length this option :
  length (_nodes (getInitialData this option))
  = length (NodeItem.flatten (virtualRoot option))
  ∧ listData (getInitialData this option) = NodeItem.flatten (virtualRoot option).
Proof.
  destruct (getInitialData_run this option)
    as (root0 & Hrun & _ & Hdata & Hdata' & Hroot').
  cbn zeta in *. unfold _nodes. rewrite Hroot', update_preorder, length_map.
  split; [|congruence].
  by rewrite <-(length_map dataIndex),
       (buildHierarchy_slots _ _ _ _ _ _ Hrun), length_seq.
Qed.

(** X11. Whatever the options are, the virtual root comes out expanded; it
    carries the series name, sits at depth 0 on row 0, has no parent, and
    has one child per entry of [option.data]. *)
Theorem virtual_root_expanded this option :
  let r := root (getInitialData this option) in
  isExpand r = true
  ∧ Tree.name r = default EmptyString (name option)
  ∧ depth r = 0 ∧ dataIndex r = 0%nat ∧ parentNode r = None
  ∧ length (children r) = length (data option).
Proof.
  destruct (getInitialData_root this option) as (? & ? & ? & ? & ? & ?).
  by repeat split.
Qed.

(** X12. Rows and nodes match one to one: there are as many nodes as option
    items (the virtual root included), the raw items are the option items
    in pre-order, looking a node up by its own data index gives that node
    back, and a node found under an index carries that index. *)
Theorem data_index_round_trip this option :
  let tree := getInitialData this option in
  listData tree = NodeItem.flatten (virtualRoot option)
  ∧ length (_nodes tree) = length (listData tree)
  ∧ (∀ node, node ∈ _nodes tree →
             getNodeByDataIndex tree (dataIndex node) = Some node)
  ∧ (∀ idx node, getNodeByDataIndex tree idx = Some node →
                 dataIndex node = idx)
  ∧ (∀ idx, is_Some (getNodeByDataIndex tree idx)
            ↔ is_Some (getRawDataItem tree idx)).
Proof.
  intros tree. subst tree.
  destruct (getInitialData_length this option) as [Hlen Hdata].
  destruct (getInitialData_shape this option) as [Hidx _].
  split; [done|]. split; [congruence|]. split; [|split].
  - intros node Hnode. by apply indexed_node.
  - intros idx node Hnode. by eapply indexed_lookup.
  - intros idx. unfold getNodeByDataIndex, getRawDataItem.
    rewrite !lookup_lt_is_Some. rewrite Hdata, Hlen. done.
Qed.

(** X13. Every node other than the root refers to its parent: the parent
    reference is the data index of a node of the tree that lists the node
    among its children, sits one level higher and was given a smaller
    index. *)
Theorem parent_links this option node :
  let tree := getInitialData this option in
  node ∈ _nodes tree →
  node = root tree
  ∨ ∃ parent,
      parentNode node = Some (dataIndex parent)
      ∧ getNodeByDataIndex tree (dataIndex parent) = Some parent
      ∧ node ∈ children parent
      ∧ depth node = depth parent + 1
      ∧ (dataIndex parent < dataIndex node)%nat.
Proof.
  intros tree Hnode. subst tree. unfold _nodes in Hnode.
  destruct (getInitialData_shape this option) as [Hidx Hlink].
  apply preorder_root_or_child in Hnode as [->|(p & Hp & Hc)]; [by left|].
  right. exists p. destruct (Hlink _ _ Hp Hc) as [Hparent Hlt].
  split; [done|]. split; [by apply indexed_node|]. split; [done|].
  split; [|done].
  apply preorder_nodeAt in Hp as [path Hpath].
  apply list_elem_of_lookup in Hc as [k Hk].
  assert (nodeAt (root (getInitialData this option)) (path ++ [k]) = Some node)
    as Hnode by (by rewrite nodeAt_snoc, Hpath).
  destruct (getInitialData_nodeAt _ _ _ _ Hpath) as (_ & _ & _ & Hdp & _).
  destruct (getInitialData_nodeAt _ _ _ _ Hnode) as (_ & _ & _ & Hdn & _).
  rewrite Hdn, Hdp, length_app. cbn. lia.
Qed.

(** X14. The depth the first traversal computes is the length of the
    longest chain of [children] below the root item: no item lies deeper,
    and some item lies exactly that deep. *)
Theorem treeDepth_longest_chain (dataRoot : TreeSeriesNodeItemOption) this
    (leaves : JsVal) :
  let tree := createTree dataRoot this leaves in
  (∀ path item, NodeItem.itemAt dataRoot path = Some item →
                Z.of_nat (length path) ≤ treeDepth tree)
  ∧ (∃ path item, NodeItem.itemAt dataRoot path = Some item
                  ∧ Z.of_nat (length path) = treeDepth tree).
Proof.
  intros tree.
  destruct (createTree_run dataRoot this leaves) as (root0 & Hrun & Htree).
  assert (root tree = root0) as Hroot by (subst tree; by rewrite Htree).
  split.
  - intros path item Hitem.
    destruct (buildHierarchy_itemAt _ _ _ _ _ _ _ _ Hrun Hitem) as [m Hm].
    destruct (buildHierarchy_nodeAt _ _ _ _ _ _ _ _ Hrun Hm)
      as (_ & _ & _ & Hd & _).
    rewrite Z.add_0_l in Hd. rewrite <-Hd. apply treeDepth_upper.
    rewrite Hroot. by eapply nodeAt_preorder.
  - rewrite treeDepth_fold.
    destruct (foldl_depth_max (preorder (root tree)) 0) as (_ & _ & [Hr|Hex]).
    + exists [], dataRoot. split; [done|]. by rewrite Hr.
    + destruct Hex as (n & Hn & Hd). rewrite Hroot in Hn.
      apply preorder_nodeAt in Hn as [path Hpath].
      destruct (buildHierarchy_nodeAt _ _ _ _ _ _ _ _ Hrun Hpath)
        as (item & Hitem & _ & Hdn & _).
      exists path, item. split; [done|]. rewrite <-Hd, Hdn. lia.
Qed.

(** X15. Expansion by depth runs from the top: if a node without an
    explicit [collapsed] is expanded, then its parent, unless the parent's
    item sets [collapsed] itself, is expanded too. *)
Theorem expanded_by_depth_has_expanded_parent this option path k node item :
  let tree := getInitialData this option in
  nodeAt (root tree) (path ++ [k]) = Some node →
  getRawDataItem tree (dataIndex node) = Some item →
  NodeItem.collapsed item = None →
  isExpand node = true →
  ∃ parent pitem,
    nodeAt (root tree) path = Some parent
    ∧ node ∈ children parent
    ∧ getRawDataItem tree (dataIndex parent) = Some pitem
    ∧ (NodeItem.collapsed pitem = None → isExpand parent = true).
Proof.
  intros tree Hnode Hrow Hc He. subst tree.
  pose proof Hnode as Hsnoc. rewrite nodeAt_snoc in Hsnoc.
  destruct (nodeAt (root (getInitialData this option)) path) as [parent|]
    eqn:Hparent; [|done].
  cbn in Hsnoc.
  destruct (getInitialData_nodeAt _ _ _ _ Hnode)
    as (item' & _ & Hrow' & Hdn & _ & _ & Hen).
  assert (item' = item) as -> by congruence.
  destruct (getInitialData_nodeAt _ _ _ _ Hparent)
    as (pitem & _ & Hprow & Hdp & _ & _ & Hep).
  exists parent, pitem. split; [done|].
  split; [by eapply list_elem_of_lookup_2|]. split; [done|].
  intros Hpc. rewrite Hpc in Hep. rewrite Hc, He in Hen.
  rewrite Hep. symmetry in Hen. apply Z.leb_le in Hen. apply Z.leb_le.
  rewrite Hdn, length_app in Hen. rewrite Hdp. cbn in Hen. lia.
Qed.

(** X16. The children of the virtual root are the entries of
    [option.data], in order: there is a first real node exactly when the
    data is not empty, and it is built from [data[0]], at depth 1, on row 1,
    with the virtual root as parent. *)
Theorem real_root_is_first_data_entry this option :
  let tree := getInitialData this option in
  length (children (root tree)) = length (data option)
  ∧ (children (root tree) !! 0%nat = None ↔ data option = [])
  ∧ (∀ realRoot, children (root tree) !! 0%nat = Some realRoot →
       ∃ item, data option !! 0%nat = Some item
               ∧ getRawDataItem tree 1 = Some item
               ∧ Tree.name realRoot = default EmptyString (NodeItem.name item)
               ∧ depth realRoot = 1 ∧ dataIndex realRoot = 1%nat
               ∧ parentNode realRoot = Some 0%nat).
Proof.
  intros tree.
  destruct (getInitialData_root this option) as (_ & _ & Hi & _ & _ & Hlen).
  destruct (getInitialData_shape this option) as [Hidx Hlink].
  pose proof (λ rr, getInitialData_nodeAt this option [0%nat] rr) as Hfirst.
  fold tree in Hi, Hlen, Hidx, Hlink, Hfirst. clearbody tree.
  split; [done|]. split.
  - split.
    + intros Hnone%lookup_ge_None. rewrite Hlen in Hnone.
      destruct (data option); [done|cbn in Hnone; lia].
    + intros Hempty. apply lookup_ge_None. rewrite Hlen, Hempty. cbn. lia.
  - intros realRoot Hreal.
    destruct (Hfirst realRoot) as (item & Hitem & Hrow & Hd & Hname & _).
    { cbn [nodeAt]. by rewrite Hreal. }
    assert (dataIndex realRoot = 1%nat) as Hone.
    { apply (indexed_lookup _ _ _ Hidx).
      rewrite preorder_unfold.
      destruct (children (root tree)) as [|c cs]; [done|].
      cbn in Hreal. inversion Hreal; subst c. cbn. by rewrite preorder_unfold. }
    exists item. cbn [NodeItem.itemAt virtualRoot NodeItem.children] in Hitem.
    destruct (data option !! 0%nat) as [it|] eqn:Hdata; [|done].
    inversion Hitem; subst it. rewrite Hone in Hrow.
    split; [done|]. split; [done|]. split; [done|]. split; [done|].
    split; [done|].
    destruct (Hlink (root tree) realRoot
                (preorder_self _) (list_elem_of_lookup_2 _ _ _ Hreal))
      as [Hparent _].
    by rewrite Hparent, Hi.
Qed.

(** *** How [formatTooltip] ends *)

(** The climb from a node of the tree: it ends, and it ends with a string
    only when it met [realRoot] on the way. *)
Lemma walkUp_outcome tree (realRoot : Datatypes.option TreeNode) :
  indexed (root tree) → linked (root tree) → parentNode (root tree) = None →
  (∀ r, realRoot = Some r → r ∈ preorder (root tree)) →
  ∀ fuel node (str : string),
    node ∈ preorder (root tree) → (dataIndex node < fuel)%nat →
    match walkUp fuel tree realRoot (Some node) str with
    | Returned _ => ∃ r anc, realRoot = Some r ∧ descends r anc node
    | TypeError => True
    | OutOfFuel => False
    end.
Proof.
  intros Hidx Hlink Hrootp Hreal.
  induction fuel as [|fuel IH]; intros node str Hnode Hfuel; [lia|].
  cbn [walkUp]. destruct (sameNode node realRoot) eqn:Hsame.
  - destruct realRoot as [r|]; [|done]. cbn in Hsame.
    apply Nat.eqb_eq in Hsame.
    pose proof (indexed_node _ _ Hidx Hnode) as Hn.
    pose proof (indexed_node _ _ Hidx (Hreal r eq_refl)) as Hr.
    rewrite Hsame in Hn. assert (node = r) as -> by congruence.
    exists r, []. split; [done|constructor].
  - destruct (parentNode node) as [p|] eqn:Hp; [|done].
    destruct (getNodeByDataIndex tree p) as [parent|] eqn:Hparent; [|done].
    apply preorder_root_or_child in Hnode as Hcase.
    destruct Hcase as [->|(q & Hq & Hc)]; [congruence|].
    destruct (Hlink _ _ Hq Hc) as [Hpq Hlt].
    assert (p = dataIndex q) as -> by congruence.
    unfold getNodeByDataIndex, _nodes in Hparent.
    rewrite (indexed_node _ _ Hidx Hq) in Hparent.
    inversion Hparent; subst parent; clear Hparent.
    specialize (IH q (Tree.name q +:+ "." +:+ str) Hq ltac:(lia)).
    destruct (walkUp fuel tree realRoot (Some q) _); [|done..].
    destruct IH as (r & anc & Hr & Hdesc).
    exists r, (anc ++ [q])%list. split; [done|by econstructor].
Qed.

(** X17. [formatTooltip] always ends. It returns a string exactly for the
    data indices of the nodes in the subtree of the first real node; for
    every other index (the virtual root, a node under a later top-level
    item, an index without a node) it throws a TypeError. *)
Theorem formatTooltip_outcome (unsafe : QArith_base.Q → string) this option
    idx :
  let tree := getInitialData this option in
  let inSubtree :=
    ∃ realRoot anc node,
      children (root tree) !! 0%nat = Some realRoot
      ∧ getNodeByDataIndex tree idx = Some node
      ∧ descends realRoot anc node in
  match formatTooltip unsafe tree idx with
  | Returned _ => inSubtree
  | TypeError => ¬ inSubtree
  | OutOfFuel => False
  end.
Proof.
  intros tree inSubtree. subst inSubtree.
  destruct (getInitialData_shape this option) as [Hidx Hlink].
  destruct (getInitialData_root this option) as (_ & _ & _ & Hrootp & _).
  fold tree in Hidx, Hlink, Hrootp.
  assert (∀ r, children (root tree) !! 0%nat = Some r → r ∈ preorder (root tree))
    as Hreal.
  { intros r Hr. eapply preorder_child;
      [by eapply list_elem_of_lookup_2|apply preorder_self]. }
  unfold formatTooltip.
  destruct (getNodeByDataIndex tree idx) as [node|] eqn:Hnode.
  - pose proof (indexed_lookup _ _ _ Hidx Hnode) as Hi.
    pose proof (lookup_lt_Some _ _ _ Hnode) as Hlt.
    pose proof (list_elem_of_lookup_2 _ _ _ Hnode) as Hin.
    pose proof (walkUp_outcome tree (children (root tree) !! 0%nat)
                  Hidx Hlink Hrootp Hreal (S (length (_nodes tree))) node
                  (Tree.name node) Hin ltac:(lia)) as Hout.
    destruct (walkUp _ _ _ _ _) as [str| |] eqn:Hwalk; [| |done].
    + destruct Hout as (r & anc & Hr & Hdesc). by exists r, anc, node.
    + intros (r & anc & node' & Hr & Hnode' & Hdesc).
      assert (node' = node) as -> by congruence.
      pose proof (linked_descends _ _ _ _ Hlink (Hreal r Hr) Hdesc) as Hge.
      rewrite Hr, (walkUp_descends _ _ _ _ Hidx Hlink (Hreal r Hr) Hdesc)
        in Hwalk by (unfold _nodes in *; lia).
      done.
  - by intros (r & anc & node & _ & ? & _).
Qed.

(** X18. With no data there is only the virtual root: it is the single node
    of the tree, expanded, the computed depth is 0, and [formatTooltip]
    throws for every data index. *)
Theorem empty_data_tree (unsafe : QArith_base.Q → string) this option idx :
  data option = [] →
  let tree := getInitialData this option in
  _nodes tree = [root tree]
  ∧ children (root tree) = []
  ∧ isExpand (root tree) = true
  ∧ treeDepth tree = 0
  ∧ formatTooltip unsafe tree idx = TypeError.
Proof.
  intros Hdata tree.
  destruct (getInitialData_root this option) as (_ & Hd & Hi & Hp & He & Hlen).
  fold tree in Hd, Hi, Hp, He, Hlen. clearbody tree. rewrite Hdata in Hlen.
  assert (children (root tree) = []) as Hkids
    by (by destruct (children (root tree))).
  assert (preorder (root tree) = [root tree]) as Hnodes
    by (by rewrite preorder_unfold, Hkids).
  split; [done|]. split; [done|]. split; [done|]. split.
  - by rewrite treeDepth_fold, Hnodes; cbn [foldl]; rewrite Hd.
  - unfold formatTooltip, getNodeByDataIndex, _nodes. rewrite Hnodes, Hkids.
    destruct idx as [|idx]; [|done].
    cbn [lookup list_lookup walkUp sameNode]. by rewrite Hp.
Qed.

(** *** The wrapped [getItemModel] on the returned tree *)

(** A node has as many children as its item. *)
Lemma getInitialData_children this option path node item :
  nodeAt (root (getInitialData this option)) path = Some node →
  NodeItem.itemAt (virtualRoot option) path = Some item →
  length (children node) = length (NodeItem.children item).
Proof.
  intros Hnode Hitem.
  assert (∀ k, (k < length (children node))%nat
               ↔ (k < length (NodeItem.children item))%nat) as Hsame.
  { intros k. rewrite <-!lookup_lt_is_Some. split.
    - intros [c Hc].
      destruct (getInitialData_nodeAt this option (path ++ [k]) c)
        as (ci & Hci & _); [by rewrite nodeAt_snoc, Hnode|].
      rewrite itemAt_snoc, Hitem in Hci. by exists ci.
    - intros [ci Hci].
      destruct (getInitialData_itemAt this option (path ++ [k]) ci)
        as [c Hc]; [by rewrite itemAt_snoc, Hitem|].
      rewrite nodeAt_snoc, Hnode in Hc. by exists c. }
  destruct (decide (length (children node) < length (NodeItem.children item))%nat)
    as [Hlt|Hge].
  - apply Hsame in Hlt. lia.
  - destruct (decide (length (NodeItem.children item) < length (children node))%nat)
      as [Hgt|?]; [|lia].
    apply Hsame in Hgt. lia.
Qed.

(** X19. On the returned tree the wrapped [getItemModel] answers for every
    row and throws a TypeError beyond the last row. The model it returns
    has the option the unwrapped one has; only the parent differs, and it
    is either the leaves model or the series model. *)
Theorem wrapped_getItemModel_outcome this option idx :
  let tree := getInitialData this option in
  match TreeSeries.getItemModel tree idx with
  | Returned wrapped =>
      (idx < length (NodeItem.flatten (virtualRoot option)))%nat
      ∧ m_option wrapped = m_option (Tree.getItemModel tree idx)
      ∧ (parentModel wrapped = Some (mkModel (leavesOf option) (Some this))
         ∨ parentModel wrapped = Some this)
  | TypeError => (length (NodeItem.flatten (virtualRoot option)) ≤ idx)%nat
  | OutOfFuel => False
  end.
Proof.
  intros tree.
  destruct (getInitialData_length this option) as [Hlen _].
  destruct (getInitialData_leavesModel this option) as [Hleaves Hhost].
  fold tree in Hlen, Hleaves, Hhost. clearbody tree.
  unfold TreeSeries.getItemModel, beforeLink, wrapMethod, getNodeByDataIndex.
  destruct (_nodes tree !! idx) as [node|] eqn:Hnode.
  - apply lookup_lt_Some in Hnode. rewrite Hlen in Hnode.
    split; [done|]. unfold getLeavesModel, Tree.getItemModel.
    rewrite Hleaves, Hhost. by destruct (_ || _); split; [|left| |right].
  - apply lookup_ge_None in Hnode. by rewrite Hlen in Hnode.
Qed.

(** X20. Straight after [getInitialData], the row of an item that has no
    children, or that says [collapsed: true], resolves through the leaves
    model, which holds [option.leaves || {}] and falls back to the series
    model; the row of an item with children and [collapsed: false] resolves
    through the series model directly. *)
Theorem initial_item_model this option path node item :
  let tree := getInitialData this option in
  let plain := mkModel (JObj (NodeItem.props item)) (Some this) in
  let styled :=
    mkModel (JObj (NodeItem.props item))
            (Some (mkModel (leavesOf option) (Some this))) in
  nodeAt (root tree) path = Some node →
  getRawDataItem tree (dataIndex node) = Some item →
  (NodeItem.children item = [] →
   TreeSeries.getItemModel tree (dataIndex node) = Returned styled)
  ∧ (NodeItem.collapsed item = Some true →
     TreeSeries.getItemModel tree (dataIndex node) = Returned styled)
  ∧ (NodeItem.children item ≠ [] → NodeItem.collapsed item = Some false →
     TreeSeries.getItemModel tree (dataIndex node) = Returned plain).
Proof.
  intros tree plain styled Hnode Hrow.
  destruct (getInitialData_nodeAt _ _ _ _ Hnode)
    as (item' & Hitem & Hrow' & _ & _ & _ & He).
  fold tree in Hrow'. assert (item' = item) as -> by congruence.
  pose proof (getInitialData_children _ _ _ _ _ Hnode Hitem) as Hkids.
  destruct (getInitialData_shape this option) as [Hidx _].
  destruct (getInitialData_leavesModel this option) as [Hleaves Hhost].
  pose proof (nodeAt_preorder _ _ _ Hnode) as Hin.
  fold tree in Hidx, Hleaves, Hhost, Hin.
  pose proof (indexed_node _ _ Hidx Hin) as Hlookup.
  clearbody tree.
  unfold TreeSeries.getItemModel, beforeLink, wrapMethod, getNodeByDataIndex,
    _nodes, getLeavesModel, Tree.getItemModel.
  rewrite Hlookup, Hrow, Hleaves, Hhost. fold plain. fold styled.
  split; [|split].
  - intros Hnil. rewrite Hnil in Hkids. by rewrite Hkids.
  - intros Hc. rewrite Hc in He. rewrite He. cbn [negb]. by rewrite orb_true_r.
  - intros Hsome Hc. rewrite Hc in He. rewrite He, Hkids.
    by destruct (NodeItem.children item).
Qed.

(** *** The theorems at work on the sample chain *)

Lemma parent_links_witness :
  let tree := getInitialData Sample.plainSeries (Sample.chain None) in
  Sample.nodeC false ∈ _nodes tree
  ∧ (Sample.nodeC false = root tree
     ∨ ∃ parent,
         parentNode (Sample.nodeC false) = Some (dataIndex parent)
         ∧ getNodeByDataIndex tree (dataIndex parent) = Some parent
         ∧ Sample.nodeC false ∈ children parent
         ∧ depth (Sample.nodeC false) = depth parent + 1
         ∧ (dataIndex parent < dataIndex (Sample.nodeC false))%nat).
Proof.
  intros tree.
  assert (Sample.nodeC false ∈ _nodes tree) as Hin.
  { apply (list_elem_of_lookup_2 _ 3%nat). vm_compute. reflexivity. }
  split; [exact Hin|].
  exact (parent_links Sample.plainSeries (Sample.chain None)
           (Sample.nodeC false) Hin).
Defined.

Lemma expanded_by_depth_has_expanded_parent_witness :
  let tree := getInitialData Sample.plainSeries (Sample.chain None) in
  let item := Sample.item "B" (NodeItem.PNum 5) None
                [Sample.item "C" NodeItem.PNaN None []] in
  nodeAt (root tree) ([0%nat] ++ [0%nat]) = Some (Sample.nodeB false)
  ∧ getRawDataItem tree (dataIndex (Sample.nodeB false)) = Some item
  ∧ ∃ parent, nodeAt (root tree) [0%nat] = Some parent
              ∧ Sample.nodeB false ∈ children parent.
Proof.
  intros tree item.
  assert (nodeAt (root tree) ([0%nat] ++ [0%nat]) = Some (Sample.nodeB false))
    as Hat by (vm_compute; reflexivity).
  assert (getRawDataItem tree (dataIndex (Sample.nodeB false)) = Some item)
    as Hrow by (vm_compute; reflexivity).
  split; [exact Hat|]. split; [exact Hrow|].
  destruct (expanded_by_depth_has_expanded_parent Sample.plainSeries
              (Sample.chain None) [0%nat] 0%nat (Sample.nodeB false) item
              Hat Hrow eq_refl eq_refl)
    as (parent & pitem & Hparent & Hchild & _).
  exists parent. split; [exact Hparent|exact Hchild].
Defined.

Lemma empty_data_tree_witness :
  let option := mkOption (Some "tree") [] JUndefined (Some true) (Some 2) in
  data option = []
  ∧ formatTooltip Sample.unsafeNumber
      (getInitialData Sample.plainSeries option) 0 = TypeError.
Proof.
  intros option.
  assert (data option = []) as Hdata by reflexivity.
  split; [exact Hdata|].
  destruct (empty_data_tree Sample.unsafeNumber Sample.plainSeries option
              0%nat Hdata)
    as (_ & _ & _ & _ & Hthrow).
  exact Hthrow.
Defined.

Lemma initial_item_model_witness :
  let tree := getInitialData Sample.plainSeries (Sample.chain None) in
  let item := Sample.item "C" NodeItem.PNaN None [] in
  nodeAt (root tree) [0; 0; 0]%nat = Some (Sample.nodeC false)
  ∧ getRawDataItem tree (dataIndex (Sample.nodeC false)) = Some item
  ∧ TreeSeries.getItemModel tree (dataIndex (Sample.nodeC false))
    = Returned (mkModel (JObj [])
                  (Some (mkModel (JObj []) (Some Sample.plainSeries)))).
Proof.
  intros tree item.
  assert (nodeAt (root tree) [0; 0; 0]%nat = Some (Sample.nodeC false)) as Hat
    by (vm_compute; reflexivity).
  assert (getRawDataItem tree (dataIndex (Sample.nodeC false)) = Some item)
    as Hrow by (vm_compute; reflexivity).
  split; [exact Hat|]. split; [exact Hrow|].
  destruct (initial_item_model Sample.plainSeries (Sample.chain None)
              [0; 0; 0]%nat (Sample.nodeC false) item Hat Hrow)
    as (Hleaf & _).
  exact (Hleaf eq_refl).
Defined.

End TreeSeriesMore.
